(** * Cdf.py: empirical cumulative distribution functions

    A shallow embedding of [Cdf.py] (class [Cdf] with [Prob], [Value],
    [Percentile], [Mean], [Render]; the builders [MakeCdf],
    [MakeCdfFromDict], [MakeCdfFromList]; the comparator [ProbLess]) and
    the properties of it that the specification states.

    Numbers.  Python numbers are modelled by exact rationals in canonical
    form ([Qc], whose equality is Leibniz equality); counts are Python
    integers ([Z]).  [float('-Inf')] is a separate constructor, see [xnum].
    Doubles are thereby idealised in two ways, and the statements below
    are worded accordingly.
    - Nothing rounds: [c/total], [p / 100.0] and the sums and products of
      [Mean] and [ProbLess] are exact.  What [Prob], [Value] and [Render]
      do with the numbers they are given is comparing and indexing, which
      does not depend on this; a property of the value of an arithmetic
      expression is a property of exact arithmetic.
    - Nothing overflows: Python raises [OverflowError] when [float()] or a
      division gets an integer beyond the range of doubles, and [MakeCdf]
      here has no such outcome.  What is stated of the CDF that a builder
      constructs from pairs or from a mapping is therefore stated for the
      case that it returns one.  The total of a builder on raw samples is
      the length of the sample list, which is within range.

    Errors.  A Python call either returns a value or raises; this is the
    type [result].  Loops that the source writes as [while] are given a
    fuel argument; running out of fuel is the outcome [FuelExhausted],
    which is no Python exception.  [bisect] supplies its own fuel and is
    shown to return on every list ([bisect_returns]); [ProbLess] takes its
    fuel as an argument and is shown to return on lists of pairs as soon as
    the fuel is at least their lengths ([ProbLess_returns]). *)

From Stdlib Require Import ZArith QArith Qcanon Lia.
From stdpp Require Import base numbers list gmap strings sorting.

Local Open Scope Z_scope.

(** ** Outcomes of a call *)

Inductive exn : Type :=
  | IndexError
  | ValueError
  | ZeroDivisionError
  | AttributeError
  | TypeError
  | UnboundLocalError
  | FuelExhausted.

Inductive result (A : Type) : Type :=
  | Ok (a : A)
  | Raise (e : exn).
Arguments Ok {A} a.
Arguments Raise {A} e.

Global Instance result_ret : MRet result := λ A a, Ok a.
Global Instance result_bind : MBind result := λ A B f m,
  match m with
  | Ok a => f a
  | Raise e => Raise e
  end.

Definition of_option {A} (e : exn) (o : option A) : result A :=
  match o with
  | Some a => Ok a
  | None => Raise e
  end.

(** ** Python primitives used by the module *)

(** [l[i]] for a Python list: a negative index counts from the end, an index
    out of range raises [IndexError]. *)
Definition getitem {A} (l : list A) (i : Z) : result A :=
  let n := Z.of_nat (length l) in
  let k := if decide (i < 0) then i + n else i in
  if decide (0 ≤ k < n) then of_option IndexError (l !! Z.to_nat k)
  else Raise IndexError.

(** [a / b] with a float divisor, exactly.  The [OverflowError] of Python
    on an integer [a] beyond the range of doubles is not part of the
    model. *)
Definition truediv (a b : Qc) : result Qc :=
  if decide (b = 0%Qc) then Raise ZeroDivisionError else Ok (a / b)%Qc.

(** [bisect.bisect(a, x)], which is [bisect_right] with [lo = 0] and
    [hi = len(a)]:
<<
    while lo < hi:
        mid = (lo+hi)//2
        if x < a[mid]: hi = mid
        else: lo = mid+1
    return lo
>> *)
Fixpoint bisect_loop (fuel : nat) (a : list Qc) (x : Qc) (lo hi : nat)
  : result nat :=
  if decide (lo < hi)%nat then
    match fuel with
    | O => Raise FuelExhausted
    | S fuel' =>
        let mid := ((lo + hi) / 2)%nat in
        am ← getitem a (Z.of_nat mid);
        if decide (x < am)%Qc then bisect_loop fuel' a x lo mid
        else bisect_loop fuel' a x (mid + 1)%nat hi
    end
  else Ok lo.

Definition bisect (a : list Qc) (x : Qc) : result nat :=
  bisect_loop (length a) a x 0%nat (length a).

(** Order of Python on the tuples [(value, count)]: by value, then by
    count. *)
Definition tuple_le (s t : Qc * Z) : Prop :=
  (s.1 < t.1)%Qc ∨ (s.1 = t.1 ∧ s.2 ≤ t.2).

Global Instance tuple_le_dec : RelDecision tuple_le.
Proof. intros s t. unfold tuple_le. apply _. Defined.

(** [sorted(items)].  Python's sort is a stable merge sort; on tuples of
    numbers two elements that compare equal are the same tuple, so the
    ascending arrangement of a list is unique and any correct sort computes
    it. *)
Definition sorted (items : list (Qc * Z)) : list (Qc * Z) :=
  merge_sort tuple_le items.

(** ** class Cdf *)

Record Cdf : Type := mkCdf {
  xs : list Qc;
  ps : list Qc;
  name : string;
}.

Module Cdf.

(** [Cdf.Prob] *)
Definition Prob (self : Cdf) (x : Qc) : result Qc :=
  x0 ← getitem (xs self) 0;
  if decide (x < x0)%Qc then Ok 0%Qc
  else
    index ← bisect (xs self) x;
    getitem (ps self) (Z.of_nat index - 1).

(** [Cdf.Value] *)
Definition Value (self : Cdf) (p : Qc) : result Qc :=
  if decide (p < 0 ∨ 1 < p)%Qc then Raise ValueError
  else if decide (p = 0%Qc) then getitem (xs self) 0
  else if decide (p = 1%Qc) then getitem (xs self) (-1)
  else
    index ← bisect (ps self) p;
    pm ← getitem (ps self) (Z.of_nat index - 1);
    if decide (p = pm) then getitem (xs self) (Z.of_nat index - 1)
    else getitem (xs self) (Z.of_nat index).

(** [Cdf.Percentile]; the quotient [p / 100.0] is exact. *)
Definition Percentile (self : Cdf) (p : Qc) : result Qc :=
  Value self (p / Qc_of_Z 100)%Qc.

(** One pass of the loop of [Cdf.Mean]; the state is [(old_p, total)]. *)
Definition Mean_step (st : Qc * Qc) (it : Qc * Qc) : Qc * Qc :=
  let '(old_p, total) := st in
  let '(x, new_p) := it in
  let p := (new_p - old_p)%Qc in
  (new_p, (total + p * x)%Qc).

(** [Cdf.Mean]; the sums and products are exact. *)
Definition Mean (self : Cdf) : Qc :=
  (fold_left Mean_step (zip (xs self) (ps self)) (0%Qc, 0%Qc)).2.

(** [Cdf.Round]: the body is [pass]; the call returns [None] and leaves the
    object as it is. *)
Definition Round (self : Cdf) (multiplier : Qc) : unit := tt.

(** The loop of [Cdf.Render] over [enumerate(self.ps)], from index [i];
    [rx] and [rp] are the lists being appended to.  [self.xs[i]] is read
    outside the [try], [self.xs[i+1]] inside it. *)
Fixpoint Render_loop (self : Cdf) (i : nat) (rest : list Qc)
    (rx rp : list Qc) : result (list Qc * list Qc) :=
  match rest with
  | [] => Ok (rx, rp)
  | p :: rest' =>
      xi ← getitem (xs self) (Z.of_nat i);
      let rx := rx ++ [xi] in
      let rp := rp ++ [p] in
      match getitem (xs self) (Z.of_nat i + 1) with
      | Ok xn => Render_loop self (S i) rest' (rx ++ [xn]) (rp ++ [p])
      | Raise IndexError => Render_loop self (S i) rest' rx rp
      | Raise e => Raise e
      end
  end.

(** [Cdf.Render] *)
Definition Render (self : Cdf) : result (list Qc * list Qc) :=
  x0 ← getitem (xs self) 0;
  Render_loop self 0 (ps self) [x0] [0%Qc].

End Cdf.

(** ** Builders *)

(** One pass of the loop of [MakeCdf]; the state is [(runsum, xs, cs)]. *)
Definition MakeCdf_step (st : Z * list Qc * list Z) (it : Qc * Z)
  : Z * list Qc * list Z :=
  let '(runsum, vs, cs) := st in
  let '(value, count) := it in
  let runsum := runsum + count in
  (runsum, vs ++ [value], cs ++ [runsum]).

(** [ps = [c/total for c in cs]] *)
Fixpoint fractions (total : Qc) (cs : list Z) : result (list Qc) :=
  match cs with
  | [] => Ok []
  | c :: cs' =>
      q ← truediv (Qc_of_Z c) total;
      qs ← fractions total cs';
      Ok (q :: qs)
  end.

(** [MakeCdf].  [float(runsum)] is the exact total: its [OverflowError] on
    an integer beyond the range of doubles is not part of the model. *)
Definition MakeCdf (items : list (Qc * Z)) (name : string) : result Cdf :=
  let '(runsum, vs, cs) := fold_left MakeCdf_step (sorted items) (0, [], []) in
  let total := Qc_of_Z runsum in
  qs ← fractions total cs;
  Ok (mkCdf vs qs name).

(** [MakeCdfFromDict]; the order in which [d.iteritems()] enumerates the
    dictionary is that of [map_to_list]. *)
Definition MakeCdfFromDict (d : gmap Qc Z) (name : string) : result Cdf :=
  MakeCdf (map_to_list d) name.

(** [hist[x] = hist.get(x, 0) + 1] *)
Definition tally (hist : gmap Qc Z) (x : Qc) : gmap Qc Z :=
  <[x := default 0 (hist !! x) + 1]> hist.

(** [MakeCdfFromList] *)
Definition MakeCdfFromList (seq : list Qc) (name : string) : result Cdf :=
  let hist := fold_left tally seq ∅ in
  MakeCdfFromDict hist name.

(** ** Objects and attribute access

    [ProbLess] never uses the fields [xs] and [ps]: it reads an attribute
    [data] of its arguments.  Attribute access is therefore modelled on
    objects as Python has them: an instance dictionary, searched first, and
    the namespace of the class. *)

Inductive pyval : Type :=
  | VNone
  | VStr (s : string)
  | VNums (l : list Qc)
  | VPairs (l : list (Qc * Qc))
  | VMethod (f : string).

Record pyobj : Type := mkObj {
  py_class : gmap string pyval;
  py_dict : gmap string pyval;
}.

(** [obj.attr] *)
Definition getattr (o : pyobj) (attr : string) : result pyval :=
  match py_dict o !! attr with
  | Some v => Ok v
  | None => of_option AttributeError (py_class o !! attr)
  end.

(** The namespace of [class Cdf]: its seven methods.  The names that Python
    adds to every class and those inherited from [object] are all of the
    form [__x__] and are left out. *)
Definition Cdf_class : gmap string pyval :=
  list_to_map
    ((λ f, (f, VMethod f)) <$>
       ["__init__"; "Prob"; "Value"; "Percentile"; "Mean"; "Round"; "Render"]).

(** [Cdf.__init__]: the three assignments to [self]. *)
Definition Cdf_init (vxs vps vname : pyval) : pyobj :=
  let d := ∅ in
  let d := <["xs" := vxs]> d in
  let d := <["ps" := vps]> d in
  let d := <["name" := vname]> d in
  mkObj Cdf_class d.

(** The object that [Cdf(xs, ps, name)] is when the builders call it. *)
Definition Cdf_obj (c : Cdf) : pyobj :=
  Cdf_init (VNums (xs c)) (VNums (ps c)) (VStr (name c)).

(** [a, b = v[i]] for an attribute value [v]: subscript, then unpack into
    two names. *)
Definition subscript_pair (v : pyval) (i : Z) : result (Qc * Qc) :=
  match v with
  | VPairs l => getitem l i
  | VNums l => _ ← getitem l i; Raise TypeError
  | VStr s => _ ← getitem (String.list_ascii_of_string s) i; Raise ValueError
  | VNone | VMethod _ => Raise TypeError
  end.

(** [len(v)] *)
Definition len (v : pyval) : result Z :=
  match v with
  | VPairs l => Ok (Z.of_nat (length l))
  | VNums l => Ok (Z.of_nat (length l))
  | VStr s => Ok (Z.of_nat (String.length s))
  | VNone | VMethod _ => Raise TypeError
  end.

(** The variable [x] of [ProbLess] starts as [float('-Inf')]. *)
Inductive xnum : Type :=
  | NegInf
  | Fin (q : Qc).

Definition xnum_le (x : xnum) (q : Qc) : Prop :=
  match x with
  | NegInf => True
  | Fin a => (a ≤ q)%Qc
  end.

Global Instance xnum_le_dec x q : Decision (xnum_le x q).
Proof. destruct x; simpl; apply _. Defined.

(** The inner loop of [ProbLess]:
<<
    while x <= x2:
        x, y = cdf2.data[j]
        if j == len(cdf2.data)-1: break
        else: j += 1
>>
    [y] is unbound until the first pass. *)
Fixpoint ProbLess_inner (fuel : nat) (cdf2 : pyobj) (x2 : Qc)
    (x : xnum) (y : option Qc) (j : Z) : result (xnum * option Qc * Z) :=
  if decide (xnum_le x x2) then
    match fuel with
    | O => Raise FuelExhausted
    | S fuel' =>
        d2 ← getattr cdf2 "data";
        '(x', y') ← subscript_pair d2 j;
        d2 ← getattr cdf2 "data";
        n ← len d2;
        if decide (j = n - 1) then Ok (Fin x', Some y', j)
        else ProbLess_inner fuel' cdf2 x2 (Fin x') (Some y') (j + 1)
    end
  else Ok (x, y, j).

(** The outer [while True:] of [ProbLess]; [budget] is the number of passes
    that each run of the inner loop may take. *)
Fixpoint ProbLess_outer (budget fuel : nat) (cdf1 cdf2 : pyobj) (total : Qc)
    (i j : Z) (x : xnum) (y : option Qc) : result Qc :=
  match fuel with
  | O => Raise FuelExhausted
  | S fuel' =>
      d1 ← getattr cdf1 "data";
      '(_, p1) ← subscript_pair d1 i;
      d1 ← getattr cdf1 "data";
      '(x2, p2) ← subscript_pair d1 (i + 1);
      let p := (p2 - p1)%Qc in
      '(x, y, j) ← ProbLess_inner budget cdf2 x2 x y j;
      yv ← of_option UnboundLocalError y;
      let total := (total + p * (1 - yv))%Qc in
      let i := i + 1 in
      d1 ← getattr cdf1 "data";
      n ← len d1;
      if decide (i = n - 1) then Ok total
      else ProbLess_outer budget fuel' cdf1 cdf2 total i j x y
  end.

(** [ProbLess], with the number of passes that each of its loops may
    take. *)
Definition ProbLess (fuel : nat) (cdf1 cdf2 : pyobj) : result Qc :=
  ProbLess_outer fuel fuel cdf1 cdf2 0%Qc 0 0 NegInf None.
(** ** Notions used to state the properties *)

(** [k] is the rightmost insertion point of [x] in [l]: everything before
    position [k] is at most [x], everything from [k] on is above [x]. *)
Definition insertion_point (l : list Qc) (x : Qc) (k : nat) : Prop :=
  (k ≤ length l)%nat ∧
  (∀ i v, l !! i = Some v → (i < k)%nat → (v ≤ x)%Qc) ∧
  (∀ i v, l !! i = Some v → (k ≤ i)%nat → (x < v)%Qc).

(** Running sums of [cs] that start from [r]. *)
Fixpoint running (r : Z) (cs : list Z) : list Z :=
  match cs with
  | [] => []
  | c :: cs' => (r + c) :: running (r + c) cs'
  end.

(** Sum of the counts of a list of pairs. *)
Definition sum_counts (s : list (Qc * Z)) : Z :=
  foldr (λ it acc, it.2 + acc) 0 s.

(** The invariants of a CDF: values strictly ascending, cumulative
    probabilities non-decreasing with final entry 1, equal lengths. *)
Record cdf_invariants (c : Cdf) : Prop := {
  inv_values : StronglySorted Qclt (xs c);
  inv_probs : StronglySorted Qcle (ps c);
  inv_length : length (xs c) = length (ps c);
  inv_final : last (ps c) = Some 1%Qc;
}.

(** All cumulative probabilities lie in [[0,1]]. *)
Definition probs_in_unit (c : Cdf) : Prop :=
  Forall (λ p, 0 ≤ p ≤ 1)%Qc (ps c).

(** The invariants of the data model of a CDF made by a builder. *)
Definition builder_invariants (c : Cdf) : Prop :=
  cdf_invariants c ∧ probs_in_unit c.

(** The three ways to build a CDF. *)
Inductive builder_input : Type :=
  | FromPairs (items : list (Qc * Z))
  | FromDict (d : gmap Qc Z)
  | FromList (seq : list Qc).

Definition build (i : builder_input) (nm : string) : result Cdf :=
  match i with
  | FromPairs items => MakeCdf items nm
  | FromDict d => MakeCdfFromDict d nm
  | FromList seq => MakeCdfFromList seq nm
  end.

(** Non-empty input with distinct values and positive counts.  The keys of
    a dictionary are distinct, and the counts tallied from samples are
    positive, by construction. *)
Definition valid_input (i : builder_input) : Prop :=
  match i with
  | FromPairs items =>
      items ≠ [] ∧ NoDup items.*1 ∧ Forall (λ it, 0 < it.2) items
  | FromDict d => d ≠ ∅ ∧ map_Forall (λ _ c, 0 < c) d
  | FromList seq => seq ≠ []
  end.

(** Sum over the pairs of count times value. *)
Definition weighted_sum (s : list (Qc * Z)) : Qc :=
  foldr (λ it acc, Qc_of_Z it.2 * it.1 + acc)%Qc 0%Qc s.

(** The arithmetic mean of raw samples: their sum over their number. *)
Definition sum_samples (seq : list Qc) : Qc := foldr Qcplus 0%Qc seq.

Definition arithmetic_mean (seq : list Qc) : Qc :=
  (sum_samples seq / Qc_of_Z (Z.of_nat (length seq)))%Qc.

(** What the loop of [Render] appends for the values and probabilities
    that remain, when both lists have the same length: each index
    contributes its own point and, if there is a next value, the point below
    that next value. *)
Fixpoint steps_x (l : list Qc) : list Qc :=
  match l with
  | [] => []
  | x :: l' => x :: match l' with [] => [] | y :: _ => y :: steps_x l' end
  end.

Fixpoint steps_p (l : list Qc) : list Qc :=
  match l with
  | [] => []
  | p :: l' => p :: match l' with [] => [] | _ :: _ => p :: steps_p l' end
  end.

(** Number of times [v] occurs in [l]. *)
Definition occurrences (v : Qc) (l : list Qc) : nat :=
  length (filter (λ x, x = v) l).

(** Numerals. *)
Definition qc (n : Z) (d : positive) : Qc := Q2Qc (n # d).

(** The CDF of the rendering example: values 1, 2, 3 with cumulative
    probabilities 0.2, 0.5, 1.0. *)
Definition Render_example : Cdf :=
  mkCdf [qc 1 1; qc 2 1; qc 3 1] [qc 1 5; qc 1 2; qc 1 1] "".

(** A CDF whose cumulative probabilities repeat: values 1, 2, 3 with
    cumulative probabilities 0.5, 0.5, 1.0. *)
Definition flat_example : Cdf :=
  mkCdf [qc 1 1; qc 2 1; qc 3 1] [qc 1 2; qc 1 2; qc 1 1] "".

(** An object of some other class that does carry [data]. *)
Definition data_obj (l : list (Qc * Qc)) : pyobj :=
  mkObj ∅ {[ "data" := VPairs l ]}.

(** Input that is not empty. *)
Definition nonempty_input (i : builder_input) : Prop :=
  match i with
  | FromPairs items => items ≠ []
  | FromDict d => d ≠ ∅
  | FromList seq => seq ≠ []
  end.

(** Total count of the pairs whose value is at most [x]. *)
Definition count_le (x : Qc) (items : list (Qc * Z)) : Z :=
  sum_counts (filter (λ it, (it.1 ≤ x)%Qc) items).

(** Number of samples that are at most [x]. *)
Definition samples_le (x : Qc) (seq : list Qc) : nat :=
  length (filter (λ s, (s ≤ x)%Qc) seq).

(** The second component of the first pair of [l2] whose first component is
    above [x2]; that of the last pair when there is none. *)
Definition cdf_after (l2 : list (Qc * Qc)) (x2 : Qc) : Qc :=
  match list_find (λ it, (x2 < it.1)%Qc) l2 with
  | Some (_, it) => it.2
  | None => from_option snd 0%Qc (last l2)
  end.

(** The sum over the consecutive pairs [(x1, p1)], [(x2, p2)] of [l1] of
    the increment [p2 - p1] times one minus [cdf_after l2 x2]. *)
Fixpoint sweep (l2 l1 : list (Qc * Qc)) : Qc :=
  match l1 with
  | [] => 0%Qc
  | (_, p1) :: rest =>
      match rest with
      | [] => 0%Qc
      | (x2, p2) :: _ => ((p2 - p1) * (1 - cdf_after l2 x2) + sweep l2 rest)%Qc
      end
  end.

(** The state [(x, y, j)] of the inner loop of [ProbLess] once it has dealt
    with the right edge [cur]: [(x, y)] is the pair of [l2] at some index
    [m], every earlier pair lies at or below [cur], and either the pair lies
    above [cur] and [j] is the next index, or the pair is the last one and
    [j] stays on it. *)
Definition held (l2 : list (Qc * Qc)) (cur : Qc)
    (x : xnum) (y : option Qc) (j : nat) : Prop :=
  ∃ m xv yv,
    l2 !! m = Some (xv, yv) ∧ x = Fin xv ∧ y = Some yv ∧
    (∀ i it, l2 !! i = Some it → (i < m)%nat → (it.1 ≤ cur)%Qc) ∧
    ((j = S m ∧ (S m < length l2)%nat ∧ (cur < xv)%Qc) ∨
     (j = m ∧ S m = length l2)).

(** The state of the inner loop before it deals with the right edge
    [cur']: untouched, or left by an edge that is not greater. *)
Definition ready (l2 : list (Qc * Qc)) (cur' : Qc)
    (x : xnum) (y : option Qc) (j : nat) : Prop :=
  (x = NegInf ∧ y = None ∧ j = 0%nat) ∨
  ∃ cur, (cur ≤ cur')%Qc ∧ held l2 cur x y j.

(** [p] stands at two positions of [l] at least. *)
Definition occurs_twice (l : list Qc) (p : Qc) : Prop :=
  ∃ i j, (i < j)%nat ∧ l !! i = Some p ∧ l !! j = Some p.

(** * Properties *)

(** ** List indexing *)

Section getitem.
Context {A : Type}.
Implicit Types (l : list A) (i : nat) (v : A).

Lemma getitem_lookup l i v :
  l !! i = Some v → getitem l (Z.of_nat i) = Ok v.
Proof.
  intros Hl. pose proof (lookup_lt_Some _ _ _ Hl) as Hlt.
  unfold getitem. cbv zeta. destruct (decide (Z.of_nat i < 0)); [lia|].
  rewrite decide_True by lia. by rewrite Nat2Z.id, Hl.
Qed.

Lemma getitem_ge l i :
  (length l ≤ i)%nat → getitem l (Z.of_nat i) = Raise IndexError.
Proof.
  intros Hge. unfold getitem. cbv zeta.
  destruct (decide (Z.of_nat i < 0)); [lia|].
  by rewrite decide_False by lia.
Qed.

Lemma getitem_last l v : last l = Some v → getitem l (-1) = Ok v.
Proof.
  intros Hl. rewrite last_lookup in Hl.
  pose proof (lookup_lt_Some _ _ _ Hl) as Hlt.
  unfold getitem. cbv zeta. destruct (decide (-1 < 0)); [|lia].
  rewrite decide_True by lia.
  replace (Z.to_nat (-1 + Z.of_nat (length l))) with (pred (length l)) by lia.
  by rewrite Hl.
Qed.

Lemma getitem_head l v : head l = Some v → getitem l 0 = Ok v.
Proof. destruct l; intros [= ->]. done. Qed.

Lemma getitem_raises l (i : Z) e : getitem l i = Raise e → e = IndexError.
Proof.
  unfold getitem. cbv zeta. destruct (decide (0 ≤ _ < _)); [|congruence].
  destruct (l !! _); simpl; congruence.
Qed.
End getitem.

(** ** Sorted lists and [bisect] *)

Lemma StronglySorted_lookup_le {A} (R : relation A) (l : list A) i j a b :
  StronglySorted R l → l !! i = Some a → l !! j = Some b → (i < j)%nat →
  R a b.
Proof.
  intros Hs. revert i j. induction Hs as [|c l Hs IH Hall]; intros i j Hi Hj Hij.
  - done.
  - destruct j as [|j]; [lia|]. simpl in Hj. destruct i as [|i].
    + simpl in Hi. injection Hi as ->.
      rewrite Forall_forall in Hall. apply Hall.
      eapply list_elem_of_lookup_2. exact Hj.
    + simpl in Hi. eapply IH; eauto. lia.
Qed.

Lemma sorted_le_lookup (l : list Qc) i j a b :
  StronglySorted Qcle l → l !! i = Some a → l !! j = Some b → (i ≤ j)%nat →
  (a ≤ b)%Qc.
Proof.
  intros Hs Hi Hj Hij. destruct (decide (i = j)) as [->|Hne].
  - rewrite Hi in Hj. injection Hj as ->. apply Qcle_refl.
  - eapply StronglySorted_lookup_le; eauto. lia.
Qed.

Lemma sorted_lt_le (l : list Qc) :
  StronglySorted Qclt l → StronglySorted Qcle l.
Proof.
  induction 1 as [|a l Hs IH Hall]; constructor; [done|].
  eapply Forall_impl; [exact Hall|]. intros b. apply Qclt_le_weak.
Qed.


Lemma bisect_loop_spec fuel (a : list Qc) x lo hi :
  StronglySorted Qcle a →
  (hi - lo ≤ fuel)%nat → (lo ≤ hi ≤ length a)%nat →
  (∀ i v, a !! i = Some v → (i < lo)%nat → (v ≤ x)%Qc) →
  (∀ i v, a !! i = Some v → (hi ≤ i)%nat → (x < v)%Qc) →
  ∃ k, bisect_loop fuel a x lo hi = Ok k ∧ insertion_point a x k.
Proof.
  intros Hs. revert lo hi.
  induction fuel as [|fuel IH]; intros lo hi Hfuel Hb Hlo Hhi;
    cbn [bisect_loop]; cbv zeta.
  - rewrite decide_False by lia. exists lo. split; [done|].
    split; [lia|]. split; [done|]. intros i v Hi Hle. apply (Hhi i v Hi). lia.
  - case_decide as Hlt; last first.
    { exists lo. split; [done|]. split; [lia|]. split; [done|].
      intros i v Hi Hle. apply (Hhi i v Hi). lia. }
    set (mid := ((lo + hi) / 2)%nat).
    assert (lo ≤ mid < hi)%nat as Hmid.
    { subst mid. split.
      - apply Nat.div_le_lower_bound; lia.
      - apply Nat.Div0.div_lt_upper_bound; lia. }
    destruct (lookup_lt_is_Some_2 a mid) as [am Ham]; [lia|].
    rewrite (getitem_lookup _ _ _ Ham). simpl.
    case_decide as Hx.
    + apply IH; [lia|lia|done|].
      intros i v Hi Hle. eapply Qclt_le_trans; [exact Hx|].
      eapply sorted_le_lookup; eauto.
    + apply IH; [lia|lia| |done].
      intros i v Hi Hle. apply Qcnot_lt_le in Hx.
      eapply Qcle_trans; [|exact Hx].
      eapply sorted_le_lookup; eauto. lia.
Qed.

Lemma bisect_spec (a : list Qc) x :
  StronglySorted Qcle a → ∃ k, bisect a x = Ok k ∧ insertion_point a x k.
Proof.
  intros Hs. apply bisect_loop_spec; [done|lia|lia| |].
  - intros i v _ Hi. lia.
  - intros i v Hi Hle. apply lookup_lt_Some in Hi. lia.
Qed.

(** [bisect] returns on every list, sorted or not. *)
Lemma bisect_loop_returns fuel (a : list Qc) x lo hi :
  (hi - lo ≤ fuel)%nat → (hi ≤ length a)%nat →
  ∃ k, bisect_loop fuel a x lo hi = Ok k.
Proof.
  revert lo hi. induction fuel as [|fuel IH]; intros lo hi Hfuel Hhi;
    cbn [bisect_loop]; cbv zeta.
  - rewrite decide_False by lia. by exists lo.
  - case_decide as Hlt; [|by exists lo].
    set (mid := ((lo + hi) / 2)%nat).
    assert (lo ≤ mid < hi)%nat as Hmid.
    { subst mid. split.
      - apply Nat.div_le_lower_bound; lia.
      - apply Nat.Div0.div_lt_upper_bound; lia. }
    destruct (lookup_lt_is_Some_2 a mid) as [am Ham]; [lia|].
    rewrite (getitem_lookup _ _ _ Ham). cbn [mbind result_bind].
    case_decide; apply IH; lia.
Qed.

Lemma bisect_returns (a : list Qc) x : ∃ k, bisect a x = Ok k.
Proof. apply bisect_loop_returns; lia. Qed.

Lemma insertion_point_unique (l : list Qc) x k k' :
  insertion_point l x k → insertion_point l x k' → k = k'.
Proof.
  intros (Hk & Hb & Ha) (Hk' & Hb' & Ha').
  destruct (decide (k = k')) as [|Hne]; [done|exfalso].
  destruct (decide (k < k')%nat).
  - destruct (lookup_lt_is_Some_2 l k) as [v Hv]; [lia|].
    apply (Qclt_not_le _ _ (Ha k v Hv ltac:(lia))). apply (Hb' k v Hv). lia.
  - destruct (lookup_lt_is_Some_2 l k') as [v Hv]; [lia|].
    apply (Qclt_not_le _ _ (Ha' k' v Hv ltac:(lia))). apply (Hb k' v Hv). lia.
Qed.

(** ** The loop of [MakeCdf] in closed form *)


Lemma MakeCdf_loop s r vs cs :
  fold_left MakeCdf_step s (r, vs, cs)
  = (r + sum_counts s, vs ++ s.*1, cs ++ running r s.*2).
Proof.
  revert r vs cs. induction s as [|[v c] s IH]; intros r vs cs; simpl.
  - by rewrite Z.add_0_r, !app_nil_r.
  - rewrite IH. rewrite <-!app_assoc. simpl. f_equal. f_equal. lia.
Qed.

Lemma running_length r cs : length (running r cs) = length cs.
Proof. revert r. induction cs; intros r; simpl; by f_equal. Qed.

Lemma fractions_ok total cs :
  total ≠ 0%Qc →
  fractions total cs = Ok ((λ c, Qc_of_Z c / total)%Qc <$> cs).
Proof.
  intros Hne. induction cs as [|c cs IH]; simpl; [done|].
  unfold truediv. rewrite decide_False by done. simpl. by rewrite IH.
Qed.

Lemma fractions_zero cs :
  cs ≠ [] → fractions 0%Qc cs = Raise ZeroDivisionError.
Proof. destruct cs; [done|]. intros _. simpl. unfold truediv. done. Qed.

Lemma sum_counts_perm s t : s ≡ₚ t → sum_counts s = sum_counts t.
Proof. induction 1; simpl; lia. Qed.

Lemma sorted_perm items : sorted items ≡ₚ items.
Proof. apply merge_sort_Permutation. Qed.

(** What [MakeCdf] returns, case by case. *)
Lemma MakeCdf_unfold items nm :
  MakeCdf items nm =
    qs ← fractions (Qc_of_Z (sum_counts items)) (running 0 (sorted items).*2);
    Ok (mkCdf (sorted items).*1 qs nm).
Proof.
  unfold MakeCdf. rewrite MakeCdf_loop. simpl.
  by rewrite (sum_counts_perm _ _ (sorted_perm items)).
Qed.

Lemma MakeCdf_nonzero items nm :
  sum_counts items ≠ 0 →
  MakeCdf items nm =
    Ok (mkCdf (sorted items).*1
          ((λ c, Qc_of_Z c / Qc_of_Z (sum_counts items))%Qc
             <$> running 0 (sorted items).*2) nm).
Proof.
  intros Hne. rewrite MakeCdf_unfold, fractions_ok; [done|].
  rewrite <-Z2Qc_inj_0. intros ?%Z2Qc_inj. done.
Qed.

Lemma sorted_nil_iff items : sorted items = [] ↔ items = [].
Proof.
  split.
  - intros Hs. apply Permutation_nil_r. rewrite <-Hs. symmetry. apply sorted_perm.
  - intros ->. done.
Qed.

Lemma MakeCdf_zero items nm :
  items ≠ [] → sum_counts items = 0 →
  MakeCdf items nm = Raise ZeroDivisionError.
Proof.
  intros Hne Hz. rewrite MakeCdf_unfold, Hz, Z2Qc_inj_0.
  rewrite fractions_zero; [done|].
  intros Hr. apply Hne, sorted_nil_iff.
  apply (f_equal length) in Hr. rewrite running_length, length_fmap in Hr.
  by apply nil_length_inv.
Qed.

Lemma MakeCdf_nil nm : MakeCdf [] nm = Ok (mkCdf [] [] nm).
Proof. reflexivity. Qed.

(** ** [sorted] sorts *)

Global Instance tuple_le_trans : Transitive tuple_le.
Proof.
  intros [a1 a2] [b1 b2] [c1 c2]. unfold tuple_le. simpl.
  intros [Hab|[-> Hab]] [Hbc|[-> Hbc]].
  - left. by eapply Qclt_trans.
  - by left.
  - by left.
  - right. split; [done|lia].
Qed.

Global Instance tuple_le_total : Total tuple_le.
Proof.
  intros [a1 a2] [b1 b2]. unfold tuple_le. simpl.
  destruct (Qc_dec a1 b1) as [[Hlt|Hgt]| ->]; [by left; left|by right; left|].
  destruct (decide (a2 ≤ b2)); [left|right]; right; split; [done|done|done|lia].
Qed.

Global Instance tuple_le_antisymm : AntiSymm (=) tuple_le.
Proof.
  intros [a1 a2] [b1 b2]. unfold tuple_le. simpl.
  intros [Hab|[Heq Hab]] [Hba|[Heq' Hba]]; simpl in *.
  - destruct (Qclt_not_le _ _ Hab). by apply Qclt_le_weak.
  - by destruct (Qclt_not_eq _ _ Hab).
  - by destruct (Qclt_not_eq _ _ Hba).
  - subst. f_equal. lia.
Qed.

Lemma sorted_StronglySorted items : StronglySorted tuple_le (sorted items).
Proof. apply StronglySorted_merge_sort; apply _. Qed.

(** The ascending arrangement of a list of pairs is unique: whatever a
    correct sort returns is [sorted items]. *)
Lemma sorted_unique items l :
  StronglySorted tuple_le l → l ≡ₚ items → l = sorted items.
Proof.
  intros Hs Hp. apply (StronglySorted_unique tuple_le); [done| |].
  - apply sorted_StronglySorted.
  - by rewrite Hp, sorted_perm.
Qed.

Lemma values_strictly_sorted (s : list (Qc * Z)) :
  StronglySorted tuple_le s → NoDup s.*1 → StronglySorted Qclt s.*1.
Proof.
  induction 1 as [|[a c] s Hs IH Hall]; simpl; intros Hnd; [constructor|].
  apply NoDup_cons in Hnd as [Hnotin Hnd]. constructor; [by apply IH|].
  rewrite Forall_fmap. rewrite Forall_forall in Hall |- *.
  intros [b c'] Hin. simpl. destruct (Hall _ Hin) as [Hlt|[Heq _]]; [done|].
  simpl in Heq. subst b. exfalso. apply Hnotin.
  apply list_elem_of_fmap. by exists (a, c').
Qed.

(** ** Running sums of positive counts *)

Lemma sum_counts_nonneg (s : list (Qc * Z)) :
  Forall (λ it, 0 < it.2) s → 0 ≤ sum_counts s.
Proof. induction 1; simpl; lia. Qed.

Lemma sum_counts_pos (s : list (Qc * Z)) :
  s ≠ [] → Forall (λ it, 0 < it.2) s → 0 < sum_counts s.
Proof.
  intros Hne Hall. destruct Hall as [|it s Hit Hall]; [done|].
  simpl. pose proof (sum_counts_nonneg _ Hall). lia.
Qed.

Lemma running_bounds (s : list (Qc * Z)) r :
  Forall (λ it, 0 < it.2) s →
  Forall (λ c, r < c ≤ r + sum_counts s) (running r s.*2).
Proof.
  intros Hall. revert r. induction Hall as [|it s Hit Hall IH]; intros r; simpl.
  - constructor.
  - pose proof (sum_counts_nonneg _ Hall). constructor; [lia|].
    eapply Forall_impl; [apply IH|]. simpl. intros c. lia.
Qed.

Lemma running_sorted (s : list (Qc * Z)) r :
  Forall (λ it, 0 < it.2) s → StronglySorted Z.lt (running r s.*2).
Proof.
  intros Hall. revert r. induction Hall as [|it s Hit Hall IH]; intros r; simpl.
  - constructor.
  - constructor; [apply IH|].
    eapply Forall_impl; [apply (running_bounds _ _ Hall)|]. simpl. lia.
Qed.

Lemma running_last (s : list (Qc * Z)) r :
  s ≠ [] → last (running r s.*2) = Some (r + sum_counts s).
Proof.
  revert r. induction s as [|it s IH]; intros r Hne; [done|].
  destruct s as [|it' s].
  - simpl. f_equal. lia.
  - change (running r (it :: it' :: s).*2)
      with ((r + it.2) :: running (r + it.2) (it' :: s).*2).
    rewrite last_cons, IH by done. simpl. f_equal. lia.
Qed.

(** ** Division by a positive total *)

Lemma Qcdiv_lt_mono (a b t : Qc) : (0 < t → a < b → a / t < b / t)%Qc.
Proof.
  intros Ht Hab. unfold Qcdiv. apply Qcmult_lt_mono_pos_r; [|done].
  by apply Qcinv_pos.
Qed.

Lemma Qcdiv_le_mono (a b t : Qc) : (0 < t → a ≤ b → a / t ≤ b / t)%Qc.
Proof.
  intros Ht Hab. unfold Qcdiv. apply Qcmult_le_mono_nonneg_r; [|done].
  by apply Qclt_le_weak, Qcinv_pos.
Qed.

Lemma Qcdiv_diag (t : Qc) : t ≠ 0%Qc → (t / t)%Qc = 1%Qc.
Proof. intros Ht. unfold Qcdiv. by apply Qcmult_inv_r. Qed.

Lemma Qcdiv_0_l (t : Qc) : (0 / t)%Qc = 0%Qc.
Proof. unfold Qcdiv. apply Qcmult_0_l. Qed.

Lemma Qc_of_Z_lt n m : n < m → (Qc_of_Z n < Qc_of_Z m)%Qc.
Proof. apply Z2Qc_inj_lt. Qed.

Lemma Qc_of_Z_le n m : n ≤ m → (Qc_of_Z n ≤ Qc_of_Z m)%Qc.
Proof. apply Z2Qc_inj_le. Qed.

Lemma Qc_of_Z_pos n : 0 < n → (0 < Qc_of_Z n)%Qc.
Proof. intros Hn. rewrite <-Z2Qc_inj_0. by apply Qc_of_Z_lt. Qed.

(** ** The builders establish the invariants *)

Section MakeCdf_invariants.
Variables (items : list (Qc * Z)) (nm : string).
Hypothesis items_nonempty : items ≠ [].
Hypothesis items_distinct : NoDup items.*1.
Hypothesis items_positive : Forall (λ it, 0 < it.2) items.

Let s := sorted items.
Let total := sum_counts items.

Lemma MakeCdf_total_pos : 0 < total.
Proof. by apply sum_counts_pos. Qed.

Lemma MakeCdf_sorted_positive : Forall (λ it, 0 < it.2) s.
Proof. subst s. by rewrite sorted_perm. Qed.

Lemma MakeCdf_total_sorted : sum_counts s = total.
Proof. apply sum_counts_perm, sorted_perm. Qed.

Lemma MakeCdf_returns :
  MakeCdf items nm =
    Ok (mkCdf s.*1
          ((λ c, Qc_of_Z c / Qc_of_Z total)%Qc <$> running 0 s.*2) nm).
Proof.
  apply MakeCdf_nonzero. pose proof MakeCdf_total_pos. unfold total in *. lia.
Qed.

Lemma MakeCdf_values_sorted : StronglySorted Qclt s.*1.
Proof.
  apply values_strictly_sorted; [apply sorted_StronglySorted|].
  subst s. by rewrite sorted_perm.
Qed.

Lemma MakeCdf_probs_strict :
  StronglySorted Qclt
    ((λ c, Qc_of_Z c / Qc_of_Z total)%Qc <$> running 0 s.*2).
Proof.
  apply (StronglySorted_fmap _ Z.lt);
    [|apply running_sorted, MakeCdf_sorted_positive].
  intros a b Hab. apply Qcdiv_lt_mono.
  - apply Qc_of_Z_pos, MakeCdf_total_pos.
  - by apply Qc_of_Z_lt.
Qed.

Lemma MakeCdf_probs_unit :
  Forall (λ p, 0 ≤ p ≤ 1)%Qc
    ((λ c, Qc_of_Z c / Qc_of_Z total)%Qc <$> running 0 s.*2).
Proof.
  pose proof (Qc_of_Z_pos _ MakeCdf_total_pos) as Hpos.
  rewrite Forall_fmap.
  eapply Forall_impl; [apply (running_bounds _ 0 MakeCdf_sorted_positive)|].
  simpl. rewrite MakeCdf_total_sorted. intros c [Hc0 Hc1]. split.
  - rewrite <-(Qcdiv_0_l (Qc_of_Z total)). apply Qcdiv_le_mono; [done|].
    rewrite <-Z2Qc_inj_0. apply Qc_of_Z_le. lia.
  - rewrite <-(Qcdiv_diag (Qc_of_Z total)) by by apply Qclt_not_eq in Hpos.
    apply Qcdiv_le_mono; [done|]. apply Qc_of_Z_le. lia.
Qed.

Lemma MakeCdf_probs_final :
  last ((λ c, Qc_of_Z c / Qc_of_Z total)%Qc <$> running 0 s.*2)
  = Some 1%Qc.
Proof.
  pose proof (Qc_of_Z_pos _ MakeCdf_total_pos) as Hpos.
  rewrite fmap_last, running_last.
  - simpl. rewrite MakeCdf_total_sorted, Qcdiv_diag; [done|].
    by apply Qclt_not_eq in Hpos.
  - subst s. by rewrite sorted_nil_iff.
Qed.

Lemma MakeCdf_invariants :
  ∃ c, MakeCdf items nm = Ok c ∧ builder_invariants c
       ∧ StronglySorted Qclt (ps c).
Proof.
  eexists. split; [apply MakeCdf_returns|]. split; [split|].
  - split; simpl.
    + apply MakeCdf_values_sorted.
    + apply sorted_lt_le, MakeCdf_probs_strict.
    + by rewrite !length_fmap, running_length, length_fmap.
    + apply MakeCdf_probs_final.
  - apply MakeCdf_probs_unit.
  - apply MakeCdf_probs_strict.
Qed.
End MakeCdf_invariants.

(** ** Tallying samples *)

Lemma weighted_sum_perm s t : s ≡ₚ t → weighted_sum s = weighted_sum t.
Proof.
  induction 1 as [|it s t _ IH|it it' s|s t u _ IH1 _ IH2]; simpl.
  - done.
  - by rewrite IH.
  - ring.
  - by rewrite IH1.
Qed.

(** A tally either adds the pair [(x, 1)] or replaces [(x, c)] by
    [(x, c + 1)]. *)
Lemma tally_to_list (hist : gmap Qc Z) x :
  ∃ c rest,
    map_to_list (tally hist x) ≡ₚ (x, c + 1) :: rest ∧
    ((c = 0 ∧ map_to_list hist ≡ₚ rest) ∨ map_to_list hist ≡ₚ (x, c) :: rest).
Proof.
  unfold tally. destruct (hist !! x) as [c|] eqn:Hx; simpl.
  - exists c, (map_to_list (delete x hist)). split.
    + rewrite <-insert_delete_eq. apply map_to_list_insert, lookup_delete_eq.
    + right. rewrite <-(insert_delete_id hist x c) at 1 by done.
      apply map_to_list_insert, lookup_delete_eq.
  - exists 0, (map_to_list hist). split; [by apply map_to_list_insert|].
    by left.
Qed.

Lemma tally_sum_counts hist x :
  sum_counts (map_to_list (tally hist x))
  = sum_counts (map_to_list hist) + 1.
Proof.
  destruct (tally_to_list hist x) as (c & rest & Ht & [[-> Hh]|Hh]);
    rewrite (sum_counts_perm _ _ Ht), (sum_counts_perm _ _ Hh); simpl; lia.
Qed.

Lemma tally_weighted_sum hist x :
  weighted_sum (map_to_list (tally hist x))
  = (weighted_sum (map_to_list hist) + x)%Qc.
Proof.
  destruct (tally_to_list hist x) as (c & rest & Ht & [[-> Hh]|Hh]);
    rewrite (weighted_sum_perm _ _ Ht), (weighted_sum_perm _ _ Hh);
    unfold weighted_sum; cbn [foldr fst snd];
    rewrite Z2Qc_inj_add, ?Z2Qc_inj_0, Z2Qc_inj_1; ring.
Qed.

Lemma tally_positive hist x :
  map_Forall (λ _ c, 0 < c) hist → map_Forall (λ _ c, 0 < c) (tally hist x).
Proof.
  intros Hall. unfold tally. apply map_Forall_insert_2; [|done].
  destruct (hist !! x) as [c|] eqn:Hx; simpl; [|lia].
  pose proof (map_Forall_lookup_1 _ _ _ _ Hall Hx). simpl in *. lia.
Qed.

Lemma hist_sum_counts seq hist :
  sum_counts (map_to_list (fold_left tally seq hist))
  = sum_counts (map_to_list hist) + Z.of_nat (length seq).
Proof.
  revert hist. induction seq as [|x seq IH]; intros hist; simpl; [lia|].
  rewrite IH, tally_sum_counts. lia.
Qed.

Lemma hist_weighted_sum seq hist :
  weighted_sum (map_to_list (fold_left tally seq hist))
  = (weighted_sum (map_to_list hist) + sum_samples seq)%Qc.
Proof.
  revert hist. induction seq as [|x seq IH]; intros hist; simpl; [ring|].
  rewrite IH, tally_weighted_sum. ring.
Qed.

Lemma hist_positive seq hist :
  map_Forall (λ _ c, 0 < c) hist →
  map_Forall (λ _ c, 0 < c) (fold_left tally seq hist).
Proof.
  revert hist. induction seq as [|x seq IH]; intros hist Hall; simpl; [done|].
  by apply IH, tally_positive.
Qed.

Lemma hist_nonempty seq : seq ≠ [] → fold_left tally seq ∅ ≠ ∅.
Proof.
  intros Hne Hempty. pose proof (hist_sum_counts seq ∅) as Hs.
  rewrite Hempty, map_to_list_empty in Hs. simpl in Hs.
  destruct seq; [done|]. simpl in Hs. lia.
Qed.

(** ** Every builder path establishes the invariants *)

Lemma MakeCdfFromDict_invariants (d : gmap Qc Z) nm :
  d ≠ ∅ → map_Forall (λ _ c, 0 < c) d →
  ∃ c, MakeCdfFromDict d nm = Ok c ∧ builder_invariants c
       ∧ StronglySorted Qclt (ps c).
Proof.
  intros Hne Hpos. apply MakeCdf_invariants.
  - by rewrite map_to_list_empty_iff.
  - apply NoDup_fst_map_to_list.
  - apply map_Forall_to_list in Hpos.
    eapply Forall_impl; [exact Hpos|]. by intros [v c].
Qed.

Lemma MakeCdfFromList_invariants (seq : list Qc) nm :
  seq ≠ [] →
  ∃ c, MakeCdfFromList seq nm = Ok c ∧ builder_invariants c
       ∧ StronglySorted Qclt (ps c).
Proof.
  intros Hne. apply MakeCdfFromDict_invariants.
  - by apply hist_nonempty.
  - apply hist_positive, map_Forall_empty.
Qed.

Lemma build_invariants i nm :
  valid_input i →
  ∃ c, build i nm = Ok c ∧ builder_invariants c ∧ StronglySorted Qclt (ps c).
Proof.
  destruct i as [items|d|seq]; simpl.
  - intros (Hne & Hnd & Hpos). by apply MakeCdf_invariants.
  - intros (Hne & Hpos). by apply MakeCdfFromDict_invariants.
  - apply MakeCdfFromList_invariants.
Qed.

(** ** The loop of [Cdf.Mean] on a built CDF *)

Lemma Mean_loop (s : list (Qc * Z)) (t : Qc) r tot :
  (fold_left Cdf.Mean_step
     (zip s.*1 ((λ c, Qc_of_Z c / t)%Qc <$> running r s.*2))
     ((Qc_of_Z r / t)%Qc, tot)).2
  = (tot + weighted_sum s / t)%Qc.
Proof.
  revert r tot. induction s as [|[x c] s IH]; intros r tot; simpl.
  - unfold Qcdiv. ring.
  - rewrite IH. rewrite Z2Qc_inj_add. unfold Qcdiv. ring.
Qed.

Lemma Mean_MakeCdf items nm c :
  MakeCdf items nm = Ok c → sum_counts items ≠ 0 →
  Cdf.Mean c = (weighted_sum items / Qc_of_Z (sum_counts items))%Qc.
Proof.
  intros Hc Hne. rewrite MakeCdf_nonzero in Hc by done. injection Hc as <-.
  unfold Cdf.Mean. simpl.
  rewrite <-(Qcdiv_0_l (Qc_of_Z (sum_counts items))) at 1.
  rewrite <-Z2Qc_inj_0 at 1. rewrite Mean_loop.
  rewrite (weighted_sum_perm _ _ (sorted_perm items)). ring.
Qed.

(** ** [Cdf.Prob] on sorted values *)

Section Prob.
Variable c : Cdf.
Hypothesis values_sorted : StronglySorted Qcle (xs c).
Hypothesis same_length : length (xs c) = length (ps c).

Lemma Prob_below x lo :
  head (xs c) = Some lo → (x < lo)%Qc → Cdf.Prob c x = Ok 0%Qc.
Proof.
  intros Hlo Hx. unfold Cdf.Prob. rewrite (getitem_head _ _ Hlo). simpl.
  by rewrite decide_True.
Qed.

Lemma Prob_insertion x lo :
  head (xs c) = Some lo → (lo ≤ x)%Qc →
  ∃ k p, insertion_point (xs c) x k ∧ (1 ≤ k)%nat ∧
         ps c !! (k - 1)%nat = Some p ∧ Cdf.Prob c x = Ok p.
Proof.
  intros Hlo Hx. unfold Cdf.Prob. rewrite (getitem_head _ _ Hlo). simpl.
  rewrite decide_False by by apply Qcle_not_lt.
  destruct (bisect_spec (xs c) x values_sorted) as (k & -> & Hk). simpl.
  assert (1 ≤ k)%nat as Hk1.
  { destruct k as [|k]; [exfalso|lia]. destruct Hk as (_ & _ & Habove).
    apply (Qcle_not_lt _ _ Hx). apply (Habove 0%nat); [|lia].
    by rewrite <-head_lookup. }
  destruct (lookup_lt_is_Some_2 (ps c) (k - 1)) as [p Hp].
  { destruct Hk as (Hlen & _). lia. }
  exists k, p. repeat split; try done; try apply Hk.
  replace (Z.of_nat k - 1) with (Z.of_nat (k - 1)) by lia.
  by apply getitem_lookup.
Qed.

Lemma insertion_point_above x hi :
  last (xs c) = Some hi → (hi ≤ x)%Qc →
  insertion_point (xs c) x (length (xs c)).
Proof.
  intros Hhi Hx. rewrite last_lookup in Hhi. split; [lia|]. split.
  - intros i v Hi _. eapply Qcle_trans; [|exact Hx].
    eapply sorted_le_lookup; eauto. apply lookup_lt_Some in Hi. lia.
  - intros i v Hi Hle. apply lookup_lt_Some in Hi. lia.
Qed.

Lemma Prob_above x lo hi q :
  head (xs c) = Some lo → last (xs c) = Some hi → last (ps c) = Some q →
  (hi ≤ x)%Qc → Cdf.Prob c x = Ok q.
Proof.
  intros Hlo Hhi Hq Hx.
  assert (lo ≤ hi)%Qc as Hlohi.
  { rewrite head_lookup in Hlo. rewrite last_lookup in Hhi.
    eapply sorted_le_lookup; eauto. lia. }
  destruct (Prob_insertion x lo Hlo) as (k & p & Hk & _ & Hp & ->).
  { by eapply Qcle_trans. }
  rewrite (insertion_point_unique _ _ _ _ Hk
             (insertion_point_above x hi Hhi Hx)) in Hp.
  rewrite last_lookup in Hq. rewrite same_length in Hp.
  replace (length (ps c) - 1)%nat with (pred (length (ps c))) in Hp by lia.
  congruence.
Qed.
End Prob.

(** On strictly ascending values, [Prob] at the support point of index [i]
    is the cumulative probability of index [i]. *)
Lemma insertion_point_support (l : list Qc) i v :
  StronglySorted Qclt l → l !! i = Some v → insertion_point l v (S i).
Proof.
  intros Hs Hi. pose proof (lookup_lt_Some _ _ _ Hi). split; [lia|]. split.
  - intros j w Hj Hlt. eapply sorted_le_lookup; eauto using sorted_lt_le. lia.
  - intros j w Hj Hle. eapply StronglySorted_lookup_le; eauto.
Qed.

Lemma Prob_support (c : Cdf) i v q :
  StronglySorted Qclt (xs c) → length (xs c) = length (ps c) →
  xs c !! i = Some v → ps c !! i = Some q → Cdf.Prob c v = Ok q.
Proof.
  intros Hs Hlen Hv Hq.
  destruct (xs c) as [|lo l] eqn:Hxs; [done|].
  assert (lo ≤ v)%Qc as Hlo.
  { eapply (sorted_le_lookup (lo :: l) 0 i); eauto using sorted_lt_le. lia. }
  rewrite <-Hxs in *.
  destruct (Prob_insertion c (sorted_lt_le _ Hs) Hlen v lo)
    as (k & p & Hk & _ & Hp & ->); [by rewrite Hxs|done|].
  rewrite (insertion_point_unique _ _ _ _ Hk
             (insertion_point_support _ _ _ Hs Hv)) in Hp.
  replace (S i - 1)%nat with i in Hp by lia. congruence.
Qed.

(** ** [Cdf.Value] under the invariants *)

Lemma Qc_0_lt_1 : (0 < 1)%Qc.
Proof. done. Qed.

Lemma Qc_in_unit_interval (p : Qc) : ¬ (p < 0 ∨ 1 < p)%Qc ↔ (0 ≤ p ≤ 1)%Qc.
Proof.
  split.
  - intros Hn. split; apply Qcnot_lt_le; tauto.
  - intros [H0 H1] [Hlt|Hlt]; by eapply Qclt_not_le.
Qed.

Section Value.
Variable c : Cdf.
Hypothesis Hinv : cdf_invariants c.

Lemma invariants_nonempty :
  ∃ lo hi, head (xs c) = Some lo ∧ last (xs c) = Some hi.
Proof.
  destruct Hinv as [_ _ Hlen Hfin].
  destruct (xs c) as [|lo l] eqn:Hxs.
  - destruct (ps c); [done|done].
  - exists lo. destruct (last (lo :: l)) as [hi|] eqn:Hl; [by exists hi|].
    by apply last_None in Hl.
Qed.

Lemma Value_out_of_range p :
  (p < 0 ∨ 1 < p)%Qc → Cdf.Value c p = Raise ValueError.
Proof. intros Hp. unfold Cdf.Value. by rewrite decide_True. Qed.

Lemma Value_zero lo : head (xs c) = Some lo → Cdf.Value c 0%Qc = Ok lo.
Proof.
  intros Hlo. unfold Cdf.Value. rewrite decide_False.
  - rewrite decide_True by done. by apply getitem_head.
  - apply Qc_in_unit_interval. split; [apply Qcle_refl|].
    apply Qclt_le_weak, Qc_0_lt_1.
Qed.

Lemma Value_one hi : last (xs c) = Some hi → Cdf.Value c 1%Qc = Ok hi.
Proof.
  intros Hhi. unfold Cdf.Value. rewrite decide_False.
  - rewrite decide_False by done. rewrite decide_True by done.
    by apply getitem_last.
  - apply Qc_in_unit_interval. split; [|apply Qcle_refl].
    apply Qclt_le_weak, Qc_0_lt_1.
Qed.

(** For [p] strictly inside the unit interval, [Value] returns the value
    at an index [j] whose cumulative probability is at least [p], and
    every earlier cumulative probability is at most [p]; it is below [p]
    when the case [p == self.ps[index-1]] does not apply or the
    probabilities are strictly increasing. *)
Lemma Value_inner p :
  (0 < p)%Qc → (p < 1)%Qc →
  ∃ j v q, xs c !! j = Some v ∧ ps c !! j = Some q ∧
           Cdf.Value c p = Ok v ∧ (p ≤ q)%Qc ∧
           (StronglySorted Qclt (ps c) →
            ∀ i q', ps c !! i = Some q' → (i < j)%nat → (q' < p)%Qc).
Proof.
  intros Hp0 Hp1. destruct Hinv as [Hxs Hps Hlen Hfin].
  unfold Cdf.Value.
  rewrite decide_False
    by (apply Qc_in_unit_interval; split; by apply Qclt_le_weak).
  rewrite decide_False by (intros ->; by apply (Qclt_not_eq _ _ Hp0)).
  rewrite decide_False by (intros ->; by apply (Qclt_not_eq _ _ Hp1)).
  destruct (bisect_spec (ps c) p Hps) as (k & -> & Hk). simpl.
  destruct Hk as (Hklen & Hbelow & Habove).
  assert (k < length (ps c))%nat as Hlt.
  { destruct (decide (k = length (ps c))) as [->|]; [exfalso|lia].
    rewrite last_lookup in Hfin.
    apply (Qclt_not_le _ _ Hp1). apply (Hbelow _ _ Hfin).
    apply lookup_lt_Some in Hfin. lia. }
  destruct (lookup_lt_is_Some_2 (ps c) k Hlt) as [qk Hqk].
  destruct (lookup_lt_is_Some_2 (xs c) k) as [vk Hvk]; [lia|].
  pose proof (Habove _ _ Hqk (Nat.le_refl k)) as Hqk'.
  destruct k as [|k'].
  - change (Z.of_nat 0 - 1) with (-1). rewrite (getitem_last _ _ Hfin). simpl.
    rewrite decide_False by (intros ->; by apply (Qclt_not_eq _ _ Hp1)).
    exists 0%nat, vk, qk. split; [done|]. split; [done|].
    split; [by apply (getitem_lookup _ 0%nat)|].
    split; [by apply Qclt_le_weak|]. intros _ i q' _ Hi. lia.
  - replace (Z.of_nat (S k') - 1) with (Z.of_nat k') by lia.
    destruct (lookup_lt_is_Some_2 (ps c) k') as [qm Hqm]; [lia|].
    destruct (lookup_lt_is_Some_2 (xs c) k') as [vm Hvm]; [lia|].
    rewrite (getitem_lookup _ _ _ Hqm). simpl.
    pose proof (Hbelow _ _ Hqm (Nat.lt_succ_diag_r k')) as Hqm'.
    case_decide as Heq.
    + subst qm. exists k', vm, p. split; [done|]. split; [done|].
      split; [by apply getitem_lookup|]. split; [apply Qcle_refl|].
      intros Hstrict i q' Hi Hik.
      eapply (StronglySorted_lookup_le Qclt); eauto.
    + exists (S k'), vk, qk. split; [done|]. split; [done|].
      split; [by apply getitem_lookup|]. split; [by apply Qclt_le_weak|].
      intros _ i q' Hi Hik.
      apply (Qcle_lt_trans _ qm).
      * eapply sorted_le_lookup; eauto. lia.
      * destruct (Qcle_lt_or_eq _ _ Hqm') as [|]; [done|congruence].
Qed.
End Value.

(** ** The index that [Value] returns: the rightmost tie *)

Section Value_ties.
Variable c : Cdf.
Hypothesis Hinv : cdf_invariants c.

(** For [p] strictly inside the unit interval, [Value] returns the value at
    an index [j] such that every later cumulative probability is above [p]
    and every earlier one is at most [p]; the cumulative probability at [j]
    is [p] itself, or it is above [p] and then [p] is none of the
    cumulative probabilities. *)
Lemma Value_rightmost p :
  (0 < p)%Qc → (p < 1)%Qc →
  ∃ j v q, xs c !! j = Some v ∧ ps c !! j = Some q ∧
           Cdf.Value c p = Ok v ∧
           (∀ i q', ps c !! i = Some q' → (j < i)%nat → (p < q')%Qc) ∧
           (∀ i q', ps c !! i = Some q' → (i < j)%nat → (q' ≤ p)%Qc) ∧
           (q = p ∨ ((p < q)%Qc ∧ ∀ q', q' ∈ ps c → q' ≠ p)).
Proof.
  intros Hp0 Hp1. destruct Hinv as [Hxs Hps Hlen Hfin].
  unfold Cdf.Value.
  rewrite decide_False
    by (apply Qc_in_unit_interval; split; by apply Qclt_le_weak).
  rewrite decide_False by (intros ->; by apply (Qclt_not_eq _ _ Hp0)).
  rewrite decide_False by (intros ->; by apply (Qclt_not_eq _ _ Hp1)).
  destruct (bisect_spec (ps c) p Hps) as (k & -> & Hklen & Hbelow & Habove).
  cbn [mbind result_bind].
  assert (k < length (ps c))%nat as Hlt.
  { destruct (decide (k = length (ps c))) as [->|]; [exfalso|lia].
    rewrite last_lookup in Hfin.
    apply (Qclt_not_le _ _ Hp1). apply (Hbelow _ _ Hfin).
    apply lookup_lt_Some in Hfin. lia. }
  destruct (lookup_lt_is_Some_2 (ps c) k Hlt) as [qk Hqk].
  destruct (lookup_lt_is_Some_2 (xs c) k) as [vk Hvk]; [lia|].
  pose proof (Habove _ _ Hqk (Nat.le_refl k)) as Hqk'.
  destruct k as [|k'].
  - change (Z.of_nat 0 - 1) with (-1). rewrite (getitem_last _ _ Hfin).
    cbn [mbind result_bind].
    rewrite decide_False by (intros ->; by apply (Qclt_not_eq _ _ Hp1)).
    exists 0%nat, vk, qk. split; [done|]. split; [done|].
    split; [by apply (getitem_lookup _ 0%nat)|].
    split; [intros i q' Hi Hlti; apply (Habove i q' Hi); lia|].
    split; [intros i q' _ Hi; lia|]. right. split; [done|].
    intros q' [i Hi]%list_elem_of_lookup ->.
    apply (Qclt_not_eq p p); [|done]. apply (Habove i p Hi). lia.
  - replace (Z.of_nat (S k') - 1) with (Z.of_nat k') by lia.
    destruct (lookup_lt_is_Some_2 (ps c) k') as [qm Hqm]; [lia|].
    destruct (lookup_lt_is_Some_2 (xs c) k') as [vm Hvm]; [lia|].
    rewrite (getitem_lookup _ _ _ Hqm). cbn [mbind result_bind].
    pose proof (Hbelow _ _ Hqm (Nat.lt_succ_diag_r k')) as Hqm'.
    case_decide as Heq.
    + subst qm. exists k', vm, p. split; [done|]. split; [done|].
      split; [by apply getitem_lookup|].
      split; [intros i q' Hi Hlti; apply (Habove i q' Hi); lia|].
      split; [intros i q' Hi Hlti; apply (Hbelow i q' Hi); lia|]. by left.
    + exists (S k'), vk, qk. split; [done|]. split; [done|].
      split; [by apply getitem_lookup|].
      split; [intros i q' Hi Hlti; apply (Habove i q' Hi); lia|].
      split; [intros i q' Hi Hlti; by apply (Hbelow i q' Hi)|].
      right. split; [done|].
      assert (qm < p)%Qc as Hqmp
        by (destruct (Qcle_lt_or_eq _ _ Hqm'); [done|congruence]).
      intros q' [i Hi]%list_elem_of_lookup ->.
      destruct (decide (i < S k')%nat) as [Hi'|Hi'].
      * apply (Qclt_not_le _ _ Hqmp).
        apply (sorted_le_lookup (ps c) i k'); [done|done|done|lia].
      * apply (Qclt_not_eq p p); [|done]. apply (Habove i p Hi). lia.
Qed.
End Value_ties.

(** ** [Cdf.Render] *)

Lemma Render_loop_lengths c i rest rx rp rx' rp' :
  Cdf.Render_loop c i rest rx rp = Ok (rx', rp') →
  length rx = length rp → length rx' = length rp'.
Proof.
  revert i rx rp. induction rest as [|p rest IH]; intros i rx rp; simpl.
  - by intros [= -> ->].
  - destruct (getitem (xs c) (Z.of_nat i)) as [xi|e]; simpl; [|done].
    destruct (getitem (xs c) (Z.of_nat i + 1)) as [xn|e].
    + intros Hr Hlen. apply IH in Hr; [done|].
      rewrite !length_app. simpl. lia.
    + destruct e; try done. intros Hr Hlen. apply IH in Hr; [done|].
      rewrite !length_app. simpl. lia.
Qed.

Lemma Render_loop_closed c pre restx restp rx rp :
  xs c = pre ++ restx → length restx = length restp →
  Cdf.Render_loop c (length pre) restp rx rp
  = Ok (rx ++ steps_x restx, rp ++ steps_p restp).
Proof.
  revert pre restx rx rp.
  induction restp as [|p restp IH]; intros pre restx rx rp Hxs Hlen.
  - destruct restx; [|done]. simpl. by rewrite !app_nil_r.
  - destruct restx as [|x restx]; [done|]. cbn [Cdf.Render_loop].
    rewrite (getitem_lookup _ _ x)
      by (rewrite Hxs; by apply list_lookup_middle).
    simpl in Hlen. cbn [mbind result_bind].
    replace (Z.of_nat (length pre) + 1) with (Z.of_nat (S (length pre))) by lia.
    destruct restx as [|y restx].
    + destruct restp; [|done].
      rewrite getitem_ge by (rewrite Hxs, length_app; simpl; lia). done.
    + rewrite (getitem_lookup _ _ y); last first.
      { rewrite Hxs, (cons_middle x), app_assoc.
        apply list_lookup_middle. rewrite length_app. simpl. lia. }
      replace (S (length pre)) with (length (pre ++ [x]))
        by (rewrite length_app; simpl; lia).
      rewrite (IH (pre ++ [x]) (y :: restx));
        [|by rewrite <-app_assoc|simpl in *; lia].
      destruct restp; [done|]. simpl. by rewrite <-!app_assoc.
Qed.

Lemma steps_x_double (l : list Qc) x0 :
  head l = Some x0 → x0 :: steps_x l = l ≫= λ x, [x; x].
Proof.
  revert x0. induction l as [|x l IH]; intros x0; [done|].
  intros [= ->]. destruct l as [|y l]; [done|].
  change (steps_x (x0 :: y :: l)) with (x0 :: y :: steps_x (y :: l)).
  by rewrite (IH y).
Qed.

Lemma occurrences_double v (l : list Qc) :
  occurrences v (l ≫= λ x, [x; x]) = (2 * occurrences v l)%nat.
Proof.
  unfold occurrences. induction l as [|x l IH]; [done|].
  change ((x :: l) ≫= (λ x, [x; x])) with (x :: x :: (l ≫= λ x, [x; x])).
  rewrite !filter_cons. case_decide; simpl; lia.
Qed.

Lemma occurrences_absent v (l : list Qc) : v ∉ l → occurrences v l = 0%nat.
Proof.
  unfold occurrences. induction l as [|x l IH]; [done|].
  intros Hnotin. apply not_elem_of_cons in Hnotin as [Hne Hnotin].
  rewrite filter_cons. rewrite decide_False by done. by apply IH.
Qed.

Lemma occurrences_sorted v (l : list Qc) :
  StronglySorted Qclt l → v ∈ l → occurrences v l = 1%nat.
Proof.
  induction 1 as [|x l Hs IH Hall]; [by intros ?%elem_of_nil|].
  rewrite Forall_forall in Hall.
  unfold occurrences in *. rewrite filter_cons.
  intros [->|Hin]%elem_of_cons.
  - rewrite decide_True by done. simpl. f_equal. apply occurrences_absent.
    intros Hin. by apply (Qclt_not_eq _ _ (Hall _ Hin)).
  - rewrite decide_False; [by apply IH|].
    intros ->. by apply (Qclt_not_eq _ _ (Hall _ Hin)).
Qed.

Lemma Render_closed (c : Cdf) :
  xs c ≠ [] → length (xs c) = length (ps c) →
  Cdf.Render c = Ok (xs c ≫= (λ x, [x; x]), 0%Qc :: steps_p (ps c)).
Proof.
  intros Hne Hlen. unfold Cdf.Render.
  destruct (xs c) as [|x0 l] eqn:Hxs; [done|].
  rewrite (getitem_head _ x0) by done. cbn [mbind result_bind].
  rewrite (Render_loop_closed c [] (x0 :: l)) by done.
  f_equal. f_equal. exact (steps_x_double (x0 :: l) x0 eq_refl).
Qed.

(** ** [ProbLess] and the attribute [data] *)

Lemma Cdf_class_no_data : Cdf_class !! "data" = None.
Proof. reflexivity. Qed.

Lemma getattr_data_Cdf vxs vps vname :
  getattr (Cdf_init vxs vps vname) "data" = Raise AttributeError.
Proof.
  unfold getattr, Cdf_init. simpl.
  rewrite !lookup_insert_ne by done. rewrite lookup_empty.
  by rewrite Cdf_class_no_data.
Qed.

Lemma ProbLess_no_data fuel (cdf1 cdf2 : pyobj) :
  getattr cdf1 "data" = Raise AttributeError →
  ProbLess (S fuel) cdf1 cdf2 = Raise AttributeError.
Proof. intros Hd. unfold ProbLess. cbn [ProbLess_outer]. by rewrite Hd. Qed.

(** On objects whose [data] is a list of pairs, [ProbLess] returns: the
    loops take at most as many passes as the lists are long. *)
Section ProbLess_data.
Variables (cdf1 cdf2 : pyobj) (l1 l2 : list (Qc * Qc)).
Hypothesis data1 : getattr cdf1 "data" = Ok (VPairs l1).
Hypothesis data2 : getattr cdf2 "data" = Ok (VPairs l2).

Lemma ProbLess_inner_returns fuel x2 x y (j : nat) :
  (j < length l2)%nat → (length l2 - j ≤ fuel)%nat →
  x = NegInf ∨ is_Some y →
  ∃ x' y' (j' : nat),
    ProbLess_inner fuel cdf2 x2 x y (Z.of_nat j) = Ok (x', Some y', Z.of_nat j')
    ∧ (j ≤ j' < length l2)%nat.
Proof.
  revert x y j. induction fuel as [|fuel IH]; intros x y j Hj Hfuel Hxy;
    [lia|].
  cbn [ProbLess_inner]. case_decide as Hle; last first.
  { destruct Hxy as [->|[yv ->]]; [by destruct Hle|].
    exists x, yv, j. split; [done|lia]. }
  rewrite data2. cbn [mbind result_bind subscript_pair len].
  destruct (lookup_lt_is_Some_2 l2 j Hj) as [[x' y'] Hl].
  rewrite (getitem_lookup _ _ _ Hl). cbn [mbind result_bind].
  case_decide as Hlast.
  - exists (Fin x'), y', j. split; [done|lia].
  - replace (Z.of_nat j + 1) with (Z.of_nat (S j)) by lia.
    destruct (IH (Fin x') (Some y') (S j)) as (x'' & y'' & j'' & -> & Hj'');
      [lia|lia|by right; eexists|].
    exists x'', y'', j''. split; [done|lia].
Qed.

Lemma ProbLess_outer_returns budget fuel total (i j : nat) x y :
  (length l2 ≤ budget)%nat →
  (S i < length l1)%nat → (length l1 - S i ≤ fuel)%nat →
  (j < length l2)%nat → x = NegInf ∨ is_Some y →
  ∃ t, ProbLess_outer budget fuel cdf1 cdf2 total
         (Z.of_nat i) (Z.of_nat j) x y = Ok t.
Proof.
  intros Hbudget. revert total i j x y.
  induction fuel as [|fuel IH]; intros total i j x y Hi Hfuel Hj Hxy; [lia|].
  cbn [ProbLess_outer]. rewrite data1.
  cbn [mbind result_bind subscript_pair len].
  destruct (lookup_lt_is_Some_2 l1 i) as [[x1 p1] Hl1]; [lia|].
  destruct (lookup_lt_is_Some_2 l1 (S i)) as [[x2 p2] Hl2]; [lia|].
  rewrite (getitem_lookup _ _ _ Hl1). cbn [mbind result_bind].
  replace (Z.of_nat i + 1) with (Z.of_nat (S i)) by lia.
  rewrite (getitem_lookup _ _ _ Hl2). cbn [mbind result_bind].
  destruct (ProbLess_inner_returns budget x2 x y j) as (x' & y' & j' & -> & Hj');
    [lia|lia|done|].
  cbn [mbind result_bind of_option]. case_decide as Hlast; [by eexists|].
  apply IH; [lia|lia|lia|by right; eexists].
Qed.

Lemma ProbLess_returns fuel :
  (2 ≤ length l1)%nat → (1 ≤ length l2)%nat →
  (length l1 ≤ fuel)%nat → (length l2 ≤ fuel)%nat →
  ∃ t, ProbLess fuel cdf1 cdf2 = Ok t.
Proof.
  intros Hl1 Hl2 Hf1 Hf2. unfold ProbLess.
  apply (ProbLess_outer_returns fuel fuel 0%Qc 0 0); [lia|lia|lia|lia|by left].
Qed.
End ProbLess_data.

Lemma getattr_data_obj l : getattr (data_obj l) "data" = Ok (VPairs l).
Proof. unfold getattr, data_obj. simpl. by rewrite lookup_singleton_eq. Qed.

Lemma ProbLess_data_obj_returns (l1 l2 : list (Qc * Qc)) fuel :
  (2 ≤ length l1)%nat → (1 ≤ length l2)%nat →
  (length l1 ≤ fuel)%nat → (length l2 ≤ fuel)%nat →
  ∃ t, ProbLess fuel (data_obj l1) (data_obj l2) = Ok t.
Proof.
  apply (ProbLess_returns _ _ l1 l2); apply getattr_data_obj.
Qed.

Lemma Cdf_init_dict vxs vps vname :
  dom (py_dict (Cdf_init vxs vps vname)) = list_to_set ["xs"; "ps"; "name"].
Proof.
  unfold Cdf_init. simpl. rewrite !dom_insert_L, dom_empty_L. set_solver.
Qed.

(** ** What a builder returns on non-empty input *)

Lemma tuple_le_fst s t : tuple_le s t → (s.1 ≤ t.1)%Qc.
Proof. intros [Hlt|[-> _]]; [by apply Qclt_le_weak|apply Qcle_refl]. Qed.

Lemma MakeCdf_shape items nm c :
  items ≠ [] → MakeCdf items nm = Ok c →
  StronglySorted Qcle (xs c) ∧ length (xs c) = length (ps c) ∧
  last (ps c) = Some 1%Qc.
Proof.
  intros Hne Hc. destruct (decide (sum_counts items = 0)) as [Hz|Hnz].
  { by rewrite MakeCdf_zero in Hc. }
  rewrite MakeCdf_nonzero in Hc by done. injection Hc as <-. simpl.
  split; [|split].
  - apply (StronglySorted_fmap _ tuple_le); [apply tuple_le_fst|].
    apply sorted_StronglySorted.
  - by rewrite !length_fmap, running_length, length_fmap.
  - rewrite fmap_last, running_last by by rewrite sorted_nil_iff.
    simpl. rewrite (sum_counts_perm _ _ (sorted_perm items)), Qcdiv_diag; [done|].
    rewrite <-Z2Qc_inj_0. by intros ?%Z2Qc_inj.
Qed.

Lemma build_shape i nm c :
  nonempty_input i → build i nm = Ok c →
  StronglySorted Qcle (xs c) ∧ length (xs c) = length (ps c) ∧
  last (ps c) = Some 1%Qc.
Proof.
  destruct i as [items|d|seq]; simpl; intros Hne.
  - by apply MakeCdf_shape.
  - apply MakeCdf_shape. by rewrite map_to_list_empty_iff.
  - apply MakeCdf_shape. rewrite map_to_list_empty_iff. by apply hist_nonempty.
Qed.

Lemma sorted_bounds (l : list Qc) lo hi v :
  StronglySorted Qcle l → head l = Some lo → last l = Some hi → v ∈ l →
  (lo ≤ v ≤ hi)%Qc.
Proof.
  intros Hs Hlo Hhi [i Hi]%list_elem_of_lookup.
  rewrite head_lookup in Hlo. rewrite last_lookup in Hhi.
  pose proof (lookup_lt_Some _ _ _ Hi).
  split; eapply sorted_le_lookup; eauto; lia.
Qed.

Lemma head_last_nonempty {A} (l : list A) n :
  length l = S n → ∃ lo hi, head l = Some lo ∧ last l = Some hi.
Proof.
  intros Hlen. destruct l as [|lo l]; [done|]. exists lo.
  destruct (last (lo :: l)) as [hi|] eqn:Hl; [by exists hi|].
  by apply last_None in Hl.
Qed.

(** ** Checking the invariants of a concrete CDF *)

Ltac check_order :=
  lazymatch goal with
  | |- (_ < _)%Qc => reflexivity
  | |- (_ ≤ _)%Qc => discriminate
  end.

Ltac check_invariants :=
  repeat first
    [ check_order
    | reflexivity
    | progress simpl
    | constructor ].

(** * The claims of the specification *)

(** ** C5: the builders establish the invariants *)

(** C5.  For every non-empty input to any builder path (pairs, mapping or
    raw samples) with distinct values and positive integer counts, the CDF
    that the builder constructs has its values sorted ascending, its
    cumulative probabilities non-decreasing and all in [[0,1]], of the same
    length as the values, and its final cumulative probability is 1. *)
Theorem builders_establish_invariants
    (i : builder_input) (nm : string) (c : Cdf) :
  valid_input i → build i nm = Ok c →
  StronglySorted Qclt (xs c) ∧
  StronglySorted Qcle (ps c) ∧
  Forall (λ p, 0 ≤ p ≤ 1)%Qc (ps c) ∧
  length (ps c) = length (xs c) ∧
  last (ps c) = Some 1%Qc.
Proof.
  intros Hv Hc.
  destruct (build_invariants i nm Hv) as (c' & Hc' & [Hinv Hunit] & _).
  rewrite Hc in Hc'. injection Hc' as <-. destruct Hinv. by repeat split.
Qed.

Lemma builders_establish_invariants_witness :
  ∃ c, build (FromPairs [(qc 5 2, 3); (qc 1 1, 1); (qc 4 1, 2)]) "" = Ok c ∧
       StronglySorted Qclt (xs c) ∧
       StronglySorted Qcle (ps c) ∧
       Forall (λ p, 0 ≤ p ≤ 1)%Qc (ps c) ∧
       length (ps c) = length (xs c) ∧
       last (ps c) = Some 1%Qc.
Proof.
  eexists. split; [vm_compute; reflexivity|].
  apply (builders_establish_invariants
           (FromPairs [(qc 5 2, 3); (qc 1 1, 1); (qc 4 1, 2)]) "").
  - simpl. split; [done|]. split.
    + apply (bool_decide_unpack _). vm_compute. exact I.
    + repeat constructor.
  - vm_compute. reflexivity.
Defined.

(** ** C6: the mean of a CDF built from samples *)

(** C6.  For every non-empty sequence of samples, [MakeCdfFromList] returns
    a CDF whose [Mean()] is the arithmetic mean of the samples, exactly in
    rational arithmetic. *)
Theorem Mean_is_arithmetic_mean (seq : list Qc) (nm : string) :
  seq ≠ [] →
  ∃ c, MakeCdfFromList seq nm = Ok c ∧ Cdf.Mean c = arithmetic_mean seq.
Proof.
  intros Hne.
  destruct (MakeCdfFromList_invariants seq nm Hne) as (c & Hc & _).
  exists c. split; [done|].
  pose proof (hist_sum_counts seq ∅) as Hn.
  pose proof (hist_weighted_sum seq ∅) as Hw.
  rewrite map_to_list_empty in Hn, Hw. simpl in Hn, Hw.
  unfold MakeCdfFromList, MakeCdfFromDict in Hc.
  rewrite (Mean_MakeCdf _ _ _ Hc).
  - unfold arithmetic_mean. rewrite Hn, Hw. f_equal. ring.
  - rewrite Hn. destruct seq; [done|]. simpl. lia.
Qed.

Lemma Mean_is_arithmetic_mean_witness :
  ∃ c, MakeCdfFromList [qc 1 1; qc 2 1; qc 2 1; qc 3 1; qc 3 1; qc 3 1] ""
       = Ok c ∧
       Cdf.Mean c
       = arithmetic_mean [qc 1 1; qc 2 1; qc 2 1; qc 3 1; qc 3 1; qc 3 1].
Proof. apply Mean_is_arithmetic_mean. discriminate. Defined.

(** ** C9 and C3: [MakeCdf] on the empty sequence *)

(** C9.  [MakeCdf] applied to an empty pair sequence returns a [Cdf] whose
    values and cumulative probabilities are both empty, and raises nothing:
    the list of running sums is empty, so the comprehension over it divides
    nothing by the zero total. *)
Theorem MakeCdf_empty (nm : string) :
  MakeCdf [] nm = Ok (mkCdf [] [] nm) ∧
  fold_left MakeCdf_step (sorted []) (0, [], []) = (0, [], []) ∧
  fractions (Qc_of_Z 0) [] = Ok [].
Proof. by repeat split. Qed.

(** C3, as the code has it.  Building a CDF from an empty pair sequence does
    not fail: no division by the total count is performed, and [MakeCdf]
    returns a CDF object, whose value and probability sequences are
    empty. *)
Theorem MakeCdf_empty_returns (nm : string) :
  (∃ c, MakeCdf [] nm = Ok c ∧ xs c = [] ∧ ps c = []) ∧
  (∀ e, MakeCdf [] nm ≠ Raise e).
Proof.
  rewrite MakeCdf_nil. split; [by eexists|]. by intros e.
Qed.

(** C3 as stated fails: on the empty pair sequence [MakeCdf] raises
    nothing. *)
Lemma MakeCdf_empty_does_not_fail : ¬ ∃ e, MakeCdf [] "" = Raise e.
Proof. intros [e He]. by rewrite MakeCdf_nil in He. Qed.

(** ** C7: [Prob] on a built CDF *)

(** C7.  On every CDF that a builder returns for non-empty input, with [lo]
    its least and [hi] its greatest support value: [Prob(x)] is 0 for every
    [x < lo], is 1 for every [x ≥ hi], and from [lo] on it is the cumulative
    probability at one less than the rightmost insertion point of [x] among
    the values, so that a support point's own mass is included. *)
Theorem Prob_on_built_cdf (i : builder_input) (nm : string) (c : Cdf) (x : Qc) :
  nonempty_input i → build i nm = Ok c →
  ∃ lo hi,
    head (xs c) = Some lo ∧ last (xs c) = Some hi ∧
    (∀ v, v ∈ xs c → lo ≤ v ≤ hi)%Qc ∧
    ((x < lo)%Qc → Cdf.Prob c x = Ok 0%Qc) ∧
    ((hi ≤ x)%Qc → Cdf.Prob c x = Ok 1%Qc) ∧
    ((lo ≤ x)%Qc →
     ∃ k p, insertion_point (xs c) x k ∧ (1 ≤ k)%nat ∧
            ps c !! (k - 1)%nat = Some p ∧ Cdf.Prob c x = Ok p).
Proof.
  intros Hne Hc. destruct (build_shape i nm c Hne Hc) as (Hs & Hlen & Hfin).
  destruct (head_last_nonempty (xs c) (pred (length (xs c))))
    as (lo & hi & Hlo & Hhi).
  { rewrite Hlen. rewrite last_lookup in Hfin.
    apply lookup_lt_Some in Hfin. lia. }
  exists lo, hi. split; [done|]. split; [done|]. split; [|split; [|split]].
  - intros v Hv. by apply (sorted_bounds (xs c)).
  - by apply Prob_below.
  - by apply (Prob_above c Hs Hlen x lo hi).
  - by apply Prob_insertion.
Qed.

Lemma Prob_on_built_cdf_witness :
  ∃ c,
    build (FromList [qc 1 1; qc 2 1; qc 2 1; qc 3 1; qc 3 1; qc 3 1]) ""
    = Ok c ∧
    ∃ lo hi,
      head (xs c) = Some lo ∧ last (xs c) = Some hi ∧
      (∀ v, v ∈ xs c → lo ≤ v ≤ hi)%Qc ∧
      ((qc 5 2 < lo)%Qc → Cdf.Prob c (qc 5 2) = Ok 0%Qc) ∧
      ((hi ≤ qc 5 2)%Qc → Cdf.Prob c (qc 5 2) = Ok 1%Qc) ∧
      ((lo ≤ qc 5 2)%Qc →
       ∃ k p, insertion_point (xs c) (qc 5 2) k ∧ (1 ≤ k)%nat ∧
              ps c !! (k - 1)%nat = Some p ∧ Cdf.Prob c (qc 5 2) = Ok p).
Proof.
  eexists. split; [vm_compute; reflexivity|].
  apply (Prob_on_built_cdf
           (FromList [qc 1 1; qc 2 1; qc 2 1; qc 3 1; qc 3 1; qc 3 1]) "").
  - simpl. discriminate.
  - vm_compute. reflexivity.
Defined.

(** ** C8: the round trip through [Value] and [Prob] *)

(** C8.  For every CDF that satisfies the builder invariants and every [p]
    in [[0,1]], [Value(p)] returns a value and [Prob] of that value is at
    least [p]. *)
Theorem Prob_Value_round_trip (c : Cdf) (p : Qc) :
  builder_invariants c → (0 ≤ p ≤ 1)%Qc →
  ∃ v q, Cdf.Value c p = Ok v ∧ Cdf.Prob c v = Ok q ∧ (p ≤ q)%Qc.
Proof.
  intros [Hinv Hunit] [Hp0 Hp1].
  destruct (invariants_nonempty c Hinv) as (lo & hi & Hlo & Hhi).
  pose proof Hinv as [Hxs Hps Hlen Hfin].
  destruct (decide (p = 0%Qc)) as [->|Hne0].
  { rewrite head_lookup in Hlo.
    destruct (lookup_lt_is_Some_2 (ps c) 0) as [q0 Hq0].
    { apply lookup_lt_Some in Hlo. lia. }
    exists lo, q0. split; [by apply Value_zero; rewrite ?head_lookup|].
    split; [by eapply Prob_support|].
    unfold probs_in_unit in Hunit. rewrite Forall_forall in Hunit.
    apply Hunit.
    by eapply list_elem_of_lookup_2. }
  destruct (decide (p = 1%Qc)) as [->|Hne1].
  { exists hi, 1%Qc. split; [by apply Value_one|]. split; [|apply Qcle_refl].
    apply (Prob_above c (sorted_lt_le _ Hxs) Hlen hi lo hi);
      [done|done|done|apply Qcle_refl]. }
  destruct (Value_inner c Hinv p) as (j & v & q & Hv & Hq & HV & Hpq & _).
  { destruct (Qcle_lt_or_eq _ _ Hp0); [done|congruence]. }
  { destruct (Qcle_lt_or_eq _ _ Hp1); [done|congruence]. }
  exists v, q. split; [done|]. split; [by eapply Prob_support|done].
Qed.

Lemma Prob_Value_round_trip_witness :
  ∃ v q, Cdf.Value Render_example (qc 1 2) = Ok v ∧
         Cdf.Prob Render_example v = Ok q ∧ (qc 1 2 ≤ q)%Qc.
Proof.
  apply Prob_Value_round_trip.
  - split; [split|]; check_invariants.
  - split; check_order.
Defined.

(** ** C4: [Value] as generalised inverse *)

(** C4, as the code has it.  For every CDF satisfying the invariants (values
    strictly ascending, cumulative probabilities non-decreasing with final
    entry 1, equal lengths): [Value(p)] raises [ValueError] exactly when [p]
    is outside [[0,1]] and returns a support value otherwise; [Value(0)] is
    the first value and [Value(1)] the last; and for [p] strictly between 0
    and 1, [Value(p)] is a support value [x] with [Prob(x) ≥ p], which is
    the smallest such support value exactly when [p] does not stand more
    than once among the cumulative probabilities; when [p] stands among
    them, [Value(p)] is the greatest support value whose cumulative
    probability is [p], the rightmost of the tied entries. *)
Theorem Value_generalised_inverse (c : Cdf) (p : Qc) :
  cdf_invariants c →
  ∃ lo hi,
    head (xs c) = Some lo ∧ last (xs c) = Some hi ∧
    (Cdf.Value c p = Raise ValueError ↔ (p < 0 ∨ 1 < p)%Qc) ∧
    ((0 ≤ p ≤ 1)%Qc → ∃ v, Cdf.Value c p = Ok v ∧ v ∈ xs c) ∧
    Cdf.Value c 0%Qc = Ok lo ∧
    Cdf.Value c 1%Qc = Ok hi ∧
    ((0 < p)%Qc → (p < 1)%Qc →
     ∃ v, Cdf.Value c p = Ok v ∧ v ∈ xs c ∧
          (∃ q, Cdf.Prob c v = Ok q ∧ (p ≤ q)%Qc) ∧
          ((∀ x q, x ∈ xs c → Cdf.Prob c x = Ok q → (p ≤ q)%Qc → (v ≤ x)%Qc)
           ↔ ¬ occurs_twice (ps c) p) ∧
          (p ∈ ps c →
           Cdf.Prob c v = Ok p ∧
           ∀ x, x ∈ xs c → Cdf.Prob c x = Ok p → (x ≤ v)%Qc)).
Proof.
  intros Hinv. destruct (invariants_nonempty c Hinv) as (lo & hi & Hlo & Hhi).
  pose proof Hinv as [Hxs Hps Hlen Hfin].
  assert ((0 ≤ p ≤ 1)%Qc → ∃ v, Cdf.Value c p = Ok v ∧ v ∈ xs c) as Hin.
  { intros [Hp0 Hp1].
    destruct (decide (p = 0%Qc)) as [->|Hne0].
    { exists lo. split; [by apply Value_zero|]. by apply head_Some_elem_of. }
    destruct (decide (p = 1%Qc)) as [->|Hne1].
    { exists hi. split; [by apply Value_one|]. by apply last_Some_elem_of. }
    destruct (Value_inner c Hinv p) as (j & v & q & Hv & _ & HV & _).
    { destruct (Qcle_lt_or_eq _ _ Hp0); [done|congruence]. }
    { destruct (Qcle_lt_or_eq _ _ Hp1); [done|congruence]. }
    exists v. split; [done|]. by eapply list_elem_of_lookup_2. }
  exists lo, hi. split; [done|]. split; [done|].
  split; [|split; [done|split; [by apply Value_zero|split; [by apply Value_one|]]]].
  { split; [|apply Value_out_of_range].
    intros Hraise. destruct (decide (p < 0 ∨ 1 < p)%Qc) as [|Hn]; [done|].
    apply Qc_in_unit_interval in Hn. destruct (Hin Hn) as (v & Hv & _).
    congruence. }
  intros Hp0 Hp1.
  destruct (Value_rightmost c Hinv p Hp0 Hp1)
    as (j & v & q & Hv & Hq & HV & Hafter & Hbefore & Hcase).
  (* [Prob] at a support value is the cumulative probability of its index *)
  assert (∀ x qx, x ∈ xs c → Cdf.Prob c x = Ok qx →
                  ∃ i, xs c !! i = Some x ∧ ps c !! i = Some qx) as Hsupp.
  { intros x qx [i Hi]%list_elem_of_lookup Hx.
    destruct (lookup_lt_is_Some_2 (ps c) i) as [qi Hqi].
    { apply lookup_lt_Some in Hi. lia. }
    rewrite (Prob_support c i x qi Hxs Hlen Hi Hqi) in Hx. injection Hx as ->.
    by exists i. }
  assert (∀ i i' x x', xs c !! i = Some x → xs c !! i' = Some x' →
                       (i ≤ i')%nat → (x ≤ x')%Qc) as Hmono.
  { intros i i' x x' Hi Hi' Hle.
    by apply (sorted_le_lookup (xs c) i i'); [apply sorted_lt_le|..]. }
  assert (p ≤ q)%Qc as Hpq.
  { destruct Hcase as [->|[Hlt _]]; [apply Qcle_refl|by apply Qclt_le_weak]. }
  exists v. split; [done|]. split; [by eapply list_elem_of_lookup_2|].
  split; [exists q; split; [by eapply Prob_support|done]|]. split; [split|].
  - (* smallest, so no tie *)
    intros Hmin (i & i' & Hii' & Hi & Hi').
    destruct Hcase as [->|[_ Hnone]];
      [|by apply (Hnone p (list_elem_of_lookup_2 _ _ _ Hi))].
    assert (i' ≤ j)%nat as Hi'j.
    { destruct (decide (i' ≤ j)%nat) as [|Hn]; [done|exfalso].
      apply (Qclt_not_eq p p); [|done]. apply (Hafter i' p Hi'). lia. }
    destruct (lookup_lt_is_Some_2 (xs c) i) as [x Hx].
    { apply lookup_lt_Some in Hi. lia. }
    pose proof (Hmin x p (list_elem_of_lookup_2 _ _ _ Hx)
                  (Prob_support c i x p Hxs Hlen Hx Hi) (Qcle_refl p)) as Hvx.
    apply (Qclt_not_le _ _
             (StronglySorted_lookup_le Qclt (xs c) i j x v Hxs Hx Hv ltac:(lia))).
    done.
  - (* no tie, so smallest *)
    intros Hnot x qx Hx HP Hle.
    destruct (Hsupp x qx Hx HP) as (i & Hi & Hqi).
    apply (Hmono j i); [done|done|].
    destruct (decide (j ≤ i)%nat) as [|Hn]; [done|exfalso].
    pose proof (Hbefore i qx Hqi ltac:(lia)) as Hqx.
    assert (qx = p) as -> by by apply Qcle_antisym.
    destruct Hcase as [->|[_ Hnone]].
    + apply Hnot. exists i, j. split; [lia|done].
    + by apply (Hnone p (list_elem_of_lookup_2 _ _ _ Hqi)).
  - (* [p] is a cumulative probability: the rightmost tie *)
    intros Hp. destruct Hcase as [->|[_ Hnone]]; [|by destruct (Hnone p Hp)].
    split; [by eapply Prob_support|].
    intros x Hx HP. destruct (Hsupp x p Hx HP) as (i & Hi & Hqi).
    apply (Hmono i j); [done|done|].
    destruct (decide (i ≤ j)%nat) as [|Hn]; [done|exfalso].
    apply (Qclt_not_eq p p); [|done]. apply (Hafter i p Hqi). lia.
Qed.

Lemma Value_generalised_inverse_witness :
  ∃ lo hi,
    head (xs flat_example) = Some lo ∧
    last (xs flat_example) = Some hi ∧
    (Cdf.Value flat_example (qc 3 10) = Raise ValueError
     ↔ (qc 3 10 < 0 ∨ 1 < qc 3 10)%Qc) ∧
    ((0 ≤ qc 3 10 ≤ 1)%Qc →
     ∃ v, Cdf.Value flat_example (qc 3 10) = Ok v ∧ v ∈ xs flat_example) ∧
    Cdf.Value flat_example 0%Qc = Ok lo ∧
    Cdf.Value flat_example 1%Qc = Ok hi ∧
    ((0 < qc 3 10)%Qc → (qc 3 10 < 1)%Qc →
     ∃ v, Cdf.Value flat_example (qc 3 10) = Ok v ∧ v ∈ xs flat_example ∧
          (∃ q, Cdf.Prob flat_example v = Ok q ∧ (qc 3 10 ≤ q)%Qc) ∧
          ((∀ x q, x ∈ xs flat_example → Cdf.Prob flat_example x = Ok q →
                   (qc 3 10 ≤ q)%Qc → (v ≤ x)%Qc)
           ↔ ¬ occurs_twice (ps flat_example) (qc 3 10)) ∧
          (qc 3 10 ∈ ps flat_example →
           Cdf.Prob flat_example v = Ok (qc 3 10) ∧
           ∀ x, x ∈ xs flat_example →
                Cdf.Prob flat_example x = Ok (qc 3 10) → (x ≤ v)%Qc)).
Proof. apply Value_generalised_inverse. split; check_invariants. Defined.

(** C4 as stated fails: non-decreasing cumulative probabilities may repeat.
    On values 1, 2, 3 with cumulative probabilities 0.5, 0.5, 1.0 and
    [p = 0.5], [Value] returns 2, although [Prob(1) = 0.5 ≥ p]. *)
Lemma Value_not_smallest_on_repeated_probs :
  ¬ ∀ (c : Cdf) (p : Qc),
      cdf_invariants c → (0 < p)%Qc → (p < 1)%Qc →
      ∃ v, Cdf.Value c p = Ok v ∧
           ∀ x q, x ∈ xs c → Cdf.Prob c x = Ok q → (p ≤ q)%Qc → (v ≤ x)%Qc.
Proof.
  intros Hclaim.
  destruct (Hclaim flat_example (qc 1 2)) as (v & Hv & Hmin).
  - split; check_invariants.
  - check_order.
  - check_order.
  - assert (Cdf.Value flat_example (qc 1 2) = Ok (qc 2 1)) as Hv'
      by (vm_compute; reflexivity).
    rewrite Hv' in Hv. injection Hv as <-.
    assert (Cdf.Prob flat_example (qc 1 1) = Ok (qc 1 2)) as Hp
      by (vm_compute; reflexivity).
    assert (qc 1 1 ∈ xs flat_example) as Hin by (simpl; set_solver).
    assert (qc 1 2 ≤ qc 1 2)%Qc as Hle by check_order.
    pose proof (Hmin _ _ Hin Hp Hle) as Habs.
    revert Habs. apply Qclt_not_le. check_order.
Qed.

(** ** C2: [Render] *)

(** C2, as the code has it.  [Render()] on the values 1, 2, 3 with
    cumulative probabilities 0.2, 0.5, 1.0 returns xs = 1, 1, 2, 2, 3, 3 and
    ps = 0, 0.2, 0.2, 0.5, 0.5, 1.0.  Whenever [Render] returns, its two
    sequences have equal length; and on a CDF satisfying the invariants it
    returns, the last support point occurs exactly twice in the returned xs,
    whose length is twice the number of support points. *)
Theorem Render_step_function :
  Cdf.Render Render_example
  = Ok ([qc 1 1; qc 1 1; qc 2 1; qc 2 1; qc 3 1; qc 3 1],
        [0%Qc; qc 1 5; qc 1 5; qc 1 2; qc 1 2; qc 1 1]) ∧
  (∀ c rx rp, Cdf.Render c = Ok (rx, rp) → length rx = length rp) ∧
  (∀ c hi, cdf_invariants c → last (xs c) = Some hi →
     ∃ rx rp, Cdf.Render c = Ok (rx, rp) ∧
              occurrences hi rx = 2%nat ∧
              length rx = (2 * length (xs c))%nat).
Proof.
  split; [reflexivity|]. split.
  - intros c rx rp. unfold Cdf.Render.
    destruct (getitem (xs c) 0) as [x0|e]; simpl; [|done].
    intros Hr. by apply Render_loop_lengths in Hr.
  - intros c hi Hinv Hhi. pose proof Hinv as [Hxs Hps Hlen Hfin].
    eexists _, _. split.
    + apply Render_closed; [|done]. intros Hnil. by rewrite Hnil in Hhi.
    + split.
      * rewrite occurrences_double, (occurrences_sorted hi (xs c)); [done|done|].
        by apply last_Some_elem_of.
      * clear. induction (xs c) as [|x l IH]; [done|].
        change ((x :: l) ≫= (λ x, [x; x])) with (x :: x :: (l ≫= λ x, [x; x])).
        simpl in *. lia.
Qed.

Lemma Render_step_function_witness :
  ∃ rx rp, Cdf.Render Render_example = Ok (rx, rp) ∧
           occurrences (qc 3 1) rx = 2%nat ∧
           length rx = (2 * length (xs Render_example))%nat.
Proof.
  destruct Render_step_function as (_ & _ & Hlast).
  apply Hlast; [split; check_invariants|reflexivity].
Defined.

(** C2 as stated fails: the rendering of the example has six points, not
    five, and the last support point 3 occurs twice in it. *)
Lemma Render_example_has_six_points :
  Cdf.Render Render_example
  ≠ Ok ([qc 1 1; qc 1 1; qc 2 1; qc 2 1; qc 3 1],
        [0%Qc; qc 1 5; qc 1 5; qc 1 2; qc 1 2]) ∧
  ∃ rx rp, Cdf.Render Render_example = Ok (rx, rp) ∧
           occurrences (qc 3 1) rx ≠ 1%nat.
Proof.
  split; [discriminate|].
  eexists _, _. split; [reflexivity|]. vm_compute. discriminate.
Qed.

(** ** C10 and C1: [ProbLess] on the CDFs of this module *)

(** C10.  [Cdf.__init__] gives an object exactly the attributes [xs], [ps]
    and [name], whatever its arguments; [ProbLess] reads [data] from its
    first argument before anything else, so on every pair of objects made by
    [Cdf.__init__] it raises [AttributeError], however many support points
    they have. *)
Theorem ProbLess_raises_AttributeError
    (fuel : nat) (vxs vps vname vxs' vps' vname' : pyval) :
  dom (py_dict (Cdf_init vxs vps vname)) = list_to_set ["xs"; "ps"; "name"] ∧
  getattr (Cdf_init vxs vps vname) "data" = Raise AttributeError ∧
  ProbLess (S fuel) (Cdf_init vxs vps vname) (Cdf_init vxs' vps' vname')
  = Raise AttributeError.
Proof.
  split; [apply Cdf_init_dict|]. split; [apply getattr_data_Cdf|].
  apply ProbLess_no_data, getattr_data_Cdf.
Qed.

(** C1, evaluated where it fails.  The CDF built from the pairs (1, 1) and
    (2, 1) satisfies the invariants and has two support points, and
    [ProbLess] on it raises [AttributeError] instead of returning a sum. *)
Theorem ProbLess_on_built_cdf_raises :
  ∃ c, MakeCdf [(qc 1 1, 1); (qc 2 1, 1)] "" = Ok c ∧
       builder_invariants c ∧
       length (xs c) = 2%nat ∧
       ∀ fuel, ProbLess (S fuel) (Cdf_obj c) (Cdf_obj c) = Raise AttributeError.
Proof.
  destruct (MakeCdf_invariants [(qc 1 1, 1); (qc 2 1, 1)] "")
    as (c & Hc & Hinv & _).
  - done.
  - apply (bool_decide_unpack _). vm_compute. exact I.
  - repeat constructor.
  - exists c. split; [done|]. split; [done|]. split.
    + rewrite MakeCdf_nonzero in Hc by done. by injection Hc as <-.
    + intros fuel. apply ProbLess_no_data, getattr_data_Cdf.
Qed.

(** On objects that do carry [data], [ProbLess] runs its sweep: here on two
    copies of the points (1, 1/6), (2, 1/2), (3, 1). *)
Example ProbLess_with_data :
  ∃ t, ProbLess 3
         (data_obj [(qc 1 1, qc 1 6); (qc 2 1, qc 1 2); (qc 3 1, qc 1 1)])
         (data_obj [(qc 1 1, qc 1 6); (qc 2 1, qc 1 2); (qc 3 1, qc 1 1)])
       = Ok t ∧ t = 0%Qc.
Proof.
  eexists. split; [vm_compute; reflexivity|]. by apply Qc_is_canon.
Qed.

(** * Further properties of the module *)

(** ** [Prob] of a built CDF is the empirical distribution function *)

Lemma running_lookup (s : list (Qc * Z)) r i :
  (i < length s)%nat →
  running r s.*2 !! i = Some (r + sum_counts (take (S i) s)).
Proof.
  revert r i. induction s as [|it s IH]; intros r i Hi; [simpl in Hi; lia|].
  destruct i as [|i].
  - simpl. f_equal. lia.
  - change (running r (it :: s).*2 !! S i)
      with (running (r + it.2) s.*2 !! i).
    rewrite IH by (simpl in Hi; lia).
    change (take (S (S i)) (it :: s)) with (it :: take (S i) s).
    simpl. f_equal. lia.
Qed.

(** A predicate that holds exactly before position [k] selects the first [k]
    elements. *)
Lemma filter_prefix {A} (P : A → Prop) `{∀ a, Decision (P a)}
    (l : list A) (k : nat) :
  (∀ i a, l !! i = Some a → (i < k)%nat → P a) →
  (∀ i a, l !! i = Some a → (k ≤ i)%nat → ¬ P a) →
  filter P l = take k l.
Proof.
  revert k. induction l as [|a l IH]; intros k Hbefore Hafter.
  - by rewrite take_nil.
  - rewrite filter_cons. destruct k as [|k].
    + rewrite decide_False by (apply (Hafter 0%nat); [done|lia]).
      rewrite (IH 0%nat); [done| |].
      * intros i b _ Hi. lia.
      * intros i b Hb _. apply (Hafter (S i)); [done|lia].
    + rewrite decide_True by (apply (Hbefore 0%nat); [done|lia]).
      simpl. f_equal. apply IH.
      * intros i b Hb Hi. apply (Hbefore (S i)); [done|lia].
      * intros i b Hb Hi. apply (Hafter (S i)); [done|lia].
Qed.

Lemma count_le_perm x s t : s ≡ₚ t → count_le x s = count_le x t.
Proof. intros Hp. unfold count_le. apply sum_counts_perm. by rewrite Hp. Qed.

Lemma count_le_insertion_point (s : list (Qc * Z)) x k :
  insertion_point s.*1 x k → count_le x s = sum_counts (take k s).
Proof.
  intros (_ & Hbefore & Hafter). unfold count_le. f_equal.
  apply filter_prefix.
  - intros i [v c] Hi Hlt. simpl. apply (Hbefore i); [|done].
    by rewrite list_lookup_fmap, Hi.
  - intros i [v c] Hi Hle. simpl. apply Qclt_not_le. apply (Hafter i); [|done].
    by rewrite list_lookup_fmap, Hi.
Qed.

Lemma count_le_below (s : list (Qc * Z)) x :
  (∀ v, v ∈ s.*1 → (x < v)%Qc) → count_le x s = 0.
Proof.
  intros Hall. unfold count_le.
  rewrite (filter_prefix _ s 0); [by rewrite take_0| |].
  - intros i a _ Hi. lia.
  - intros i [v c] Hi _. simpl. apply Qclt_not_le, Hall.
    apply list_elem_of_fmap. exists (v, c). split; [done|].
    by eapply list_elem_of_lookup_2.
Qed.

Lemma Prob_MakeCdf items nm c x :
  items ≠ [] → MakeCdf items nm = Ok c →
  Cdf.Prob c x
  = Ok (Qc_of_Z (count_le x items) / Qc_of_Z (sum_counts items))%Qc.
Proof.
  intros Hne Hc.
  destruct (MakeCdf_shape items nm c Hne Hc) as (Hs & Hlen & Hfin).
  destruct (decide (sum_counts items = 0)) as [Hz|Hnz].
  { by rewrite MakeCdf_zero in Hc. }
  rewrite MakeCdf_nonzero in Hc by done.
  assert (xs c = (sorted items).*1) as Hxs by by injection Hc as <-.
  assert (ps c = (λ n, Qc_of_Z n / Qc_of_Z (sum_counts items))%Qc
                   <$> running 0 (sorted items).*2) as Hps
    by by injection Hc as <-.
  clear Hc.
  rewrite <-(count_le_perm x _ _ (sorted_perm items)).
  destruct (head_last_nonempty (xs c) (pred (length items)))
    as (lo & hi & Hlo & Hhi).
  { rewrite Hxs, length_fmap, (Permutation_length (sorted_perm items)).
    destruct items; [done|]. simpl. lia. }
  destruct (decide (x < lo)%Qc) as [Hx|Hx].
  - rewrite (Prob_below _ x lo) by done.
    rewrite count_le_below, Z2Qc_inj_0, Qcdiv_0_l; [done|].
    intros v Hv. eapply Qclt_le_trans; [exact Hx|].
    rewrite <-Hxs in Hv. by apply (sorted_bounds (xs c) lo hi v).
  - apply Qcnot_lt_le in Hx.
    destruct (Prob_insertion _ Hs Hlen x lo Hlo Hx)
      as (k & p & Hk & Hk1 & Hp & ->).
    f_equal. rewrite Hxs in Hk.
    rewrite Hps, list_lookup_fmap, running_lookup in Hp.
    + simpl in Hp. injection Hp as <-.
      rewrite (count_le_insertion_point _ x k Hk).
      replace (S (k - 1)) with k by lia. by rewrite Z.add_0_l.
    + destruct Hk as (Hkl & _). rewrite length_fmap in Hkl. lia.
Qed.

(** Tallying the sample [v] raises the count of the values at most [x] by
    one exactly when [v ≤ x]. *)
Lemma tally_count_le hist v x :
  count_le x (map_to_list (tally hist v))
  = count_le x (map_to_list hist) + (if decide (v ≤ x)%Qc then 1 else 0).
Proof.
  destruct (tally_to_list hist v) as (c & rest & Ht & [[-> Hh]|Hh]);
    rewrite (count_le_perm _ _ _ Ht), (count_le_perm _ _ _ Hh);
    unfold count_le; rewrite ?filter_cons; simpl;
    case_decide; simpl; lia.
Qed.

Lemma hist_count_le seq hist x :
  count_le x (map_to_list (fold_left tally seq hist))
  = count_le x (map_to_list hist) + Z.of_nat (samples_le x seq).
Proof.
  revert hist. induction seq as [|v seq IH]; intros hist.
  - simpl. unfold samples_le. simpl. lia.
  - simpl. rewrite IH, tally_count_le. unfold samples_le.
    rewrite filter_cons. case_decide; simpl; lia.
Qed.

(** X1.  For a non-empty histogram on which [MakeCdf] returns, [Prob(x)] of
    the CDF is the total count of the pairs with value at most [x], over the
    total count of all pairs. *)
Theorem Prob_is_cumulative_frequency
    (items : list (Qc * Z)) (nm : string) (c : Cdf) (x : Qc) :
  items ≠ [] → MakeCdf items nm = Ok c →
  Cdf.Prob c x
  = Ok (Qc_of_Z (count_le x items) / Qc_of_Z (sum_counts items))%Qc.
Proof. apply Prob_MakeCdf. Qed.

Lemma Prob_is_cumulative_frequency_witness :
  ∃ c, MakeCdf [(qc 3 1, 3); (qc 1 1, 1); (qc 2 1, 2)] "" = Ok c ∧
       Cdf.Prob c (qc 5 2)
       = Ok (Qc_of_Z (count_le (qc 5 2)
                        [(qc 3 1, 3); (qc 1 1, 1); (qc 2 1, 2)]%Z)
             / Qc_of_Z (sum_counts [(qc 3 1, 3); (qc 1 1, 1); (qc 2 1, 2)]%Z))%Qc.
Proof.
  eexists. split; [vm_compute; reflexivity|].
  apply (Prob_is_cumulative_frequency _ "").
  - discriminate.
  - vm_compute. reflexivity.
Defined.

(** X2.  For every non-empty sequence of samples, [MakeCdfFromList] returns
    a CDF whose [Prob(x)] is, for every [x], the number of samples at most
    [x] over the number of samples. *)
Theorem Prob_is_empirical_distribution (seq : list Qc) (nm : string) :
  seq ≠ [] →
  ∃ c, MakeCdfFromList seq nm = Ok c ∧
       ∀ x, Cdf.Prob c x
            = Ok (Qc_of_Z (Z.of_nat (samples_le x seq))
                  / Qc_of_Z (Z.of_nat (length seq)))%Qc.
Proof.
  intros Hne.
  destruct (MakeCdfFromList_invariants seq nm Hne) as (c & Hc & _).
  exists c. split; [done|]. intros x.
  unfold MakeCdfFromList, MakeCdfFromDict in Hc.
  rewrite (Prob_MakeCdf (map_to_list (fold_left tally seq ∅)) nm c x);
    [|by rewrite map_to_list_empty_iff; apply hist_nonempty|done].
  rewrite hist_count_le, hist_sum_counts, map_to_list_empty.
  unfold count_le. simpl. by rewrite !Z.add_0_l.
Qed.

Lemma Prob_is_empirical_distribution_witness :
  ∃ c, MakeCdfFromList [qc 1 1; qc 2 1; qc 2 1; qc 3 1; qc 3 1; qc 3 1] ""
       = Ok c ∧
       ∀ x, Cdf.Prob c x
            = Ok (Qc_of_Z (Z.of_nat (samples_le x
                     [qc 1 1; qc 2 1; qc 2 1; qc 3 1; qc 3 1; qc 3 1]))
                  / Qc_of_Z (Z.of_nat (length
                     [qc 1 1; qc 2 1; qc 2 1; qc 3 1; qc 3 1; qc 3 1])))%Qc.
Proof. apply Prob_is_empirical_distribution. discriminate. Defined.

(** ** [Prob] is a distribution function *)

Lemma insertion_point_mono (l : list Qc) x y kx ky :
  (x ≤ y)%Qc → insertion_point l x kx → insertion_point l y ky →
  (kx ≤ ky)%nat.
Proof.
  intros Hxy (Hkx & Hbx & _) (Hky & _ & Hay).
  destruct (decide (kx ≤ ky)%nat) as [|Hn]; [done|exfalso].
  destruct (lookup_lt_is_Some_2 l ky) as [v Hv]; [lia|].
  apply (Qclt_not_le _ _ (Hay ky v Hv (Nat.le_refl ky))).
  eapply Qcle_trans; [|exact Hxy]. apply (Hbx ky v Hv). lia.
Qed.

Lemma Prob_in_unit_interval c x :
  builder_invariants c → ∃ q, Cdf.Prob c x = Ok q ∧ (0 ≤ q ≤ 1)%Qc.
Proof.
  intros [Hinv Hunit]. pose proof Hinv as [Hxs Hps Hlen Hfin].
  destruct (invariants_nonempty c Hinv) as (lo & hi & Hlo & Hhi).
  destruct (decide (x < lo)%Qc) as [Hx|Hx].
  - exists 0%Qc. split; [by apply (Prob_below c x lo)|].
    split; [apply Qcle_refl|apply Qclt_le_weak, Qc_0_lt_1].
  - apply Qcnot_lt_le in Hx.
    destruct (Prob_insertion c (sorted_lt_le _ Hxs) Hlen x lo Hlo Hx)
      as (k & p & _ & _ & Hp & HP).
    exists p. split; [done|]. unfold probs_in_unit in Hunit.
    rewrite Forall_forall in Hunit. apply Hunit.
    by eapply list_elem_of_lookup_2.
Qed.

(** X3.  On a CDF satisfying the builder invariants, [Prob] always returns,
    and what it returns lies in the unit interval. *)
Theorem Prob_is_a_probability (c : Cdf) (x : Qc) :
  builder_invariants c → ∃ q, Cdf.Prob c x = Ok q ∧ (0 ≤ q ≤ 1)%Qc.
Proof. apply Prob_in_unit_interval. Qed.

Lemma Prob_is_a_probability_witness :
  ∃ q, Cdf.Prob Render_example (qc 5 2) = Ok q ∧ (0 ≤ q ≤ 1)%Qc.
Proof.
  apply Prob_is_a_probability. split; [split|]; check_invariants.
Defined.

(** X4.  On a CDF satisfying the builder invariants, [Prob] is
    non-decreasing: a larger argument never gets a smaller probability. *)
Theorem Prob_monotone (c : Cdf) (x y : Qc) :
  builder_invariants c → (x ≤ y)%Qc →
  ∃ p q, Cdf.Prob c x = Ok p ∧ Cdf.Prob c y = Ok q ∧ (p ≤ q)%Qc.
Proof.
  intros Hb Hxy. pose proof Hb as [Hinv Hunit].
  pose proof Hinv as [Hxs Hps Hlen Hfin].
  destruct (invariants_nonempty c Hinv) as (lo & hi & Hlo & Hhi).
  destruct (decide (x < lo)%Qc) as [Hx|Hx].
  - destruct (Prob_in_unit_interval c y Hb) as (q & Hq & Hq0 & _).
    exists 0%Qc, q. split; [by apply (Prob_below c x lo)|done].
  - apply Qcnot_lt_le in Hx.
    destruct (Prob_insertion c (sorted_lt_le _ Hxs) Hlen x lo Hlo Hx)
      as (kx & p & Hkx & Hkx1 & Hp & HPx).
    destruct (Prob_insertion c (sorted_lt_le _ Hxs) Hlen y lo Hlo)
      as (ky & q & Hky & Hky1 & Hq & HPy); [by eapply Qcle_trans|].
    exists p, q. split; [done|]. split; [done|].
    pose proof (insertion_point_mono _ _ _ _ _ Hxy Hkx Hky).
    apply (sorted_le_lookup (ps c) (kx - 1) (ky - 1)); [done|done|done|lia].
Qed.

Lemma Prob_monotone_witness :
  ∃ p q, Cdf.Prob Render_example (qc 3 2) = Ok p ∧
         Cdf.Prob Render_example (qc 5 2) = Ok q ∧ (p ≤ q)%Qc.
Proof.
  apply Prob_monotone.
  - split; [split|]; check_invariants.
  - check_order.
Defined.

(** ** [Value] is a quantile function *)

Section Value_index.
Variable c : Cdf.
Hypothesis Hinv : cdf_invariants c.

(** The index that [Value] picks for [p] strictly inside the unit interval:
    its cumulative probability is at least [p] and every earlier one is at
    most [p]. *)
Lemma Value_index p :
  (0 < p)%Qc → (p < 1)%Qc →
  ∃ j v q, xs c !! j = Some v ∧ ps c !! j = Some q ∧
           Cdf.Value c p = Ok v ∧ (p ≤ q)%Qc ∧
           (∀ i q', ps c !! i = Some q' → (i < j)%nat → (q' ≤ p)%Qc).
Proof.
  intros Hp0 Hp1. destruct Hinv as [Hxs Hps Hlen Hfin].
  unfold Cdf.Value.
  rewrite decide_False
    by (apply Qc_in_unit_interval; split; by apply Qclt_le_weak).
  rewrite decide_False by (intros ->; by apply (Qclt_not_eq _ _ Hp0)).
  rewrite decide_False by (intros ->; by apply (Qclt_not_eq _ _ Hp1)).
  destruct (bisect_spec (ps c) p Hps) as (k & -> & Hklen & Hbelow & Habove).
  cbn [mbind result_bind].
  assert (k < length (ps c))%nat as Hlt.
  { destruct (decide (k = length (ps c))) as [->|]; [exfalso|lia].
    rewrite last_lookup in Hfin.
    apply (Qclt_not_le _ _ Hp1). apply (Hbelow _ _ Hfin).
    apply lookup_lt_Some in Hfin. lia. }
  destruct (lookup_lt_is_Some_2 (ps c) k Hlt) as [qk Hqk].
  destruct (lookup_lt_is_Some_2 (xs c) k) as [vk Hvk]; [lia|].
  pose proof (Habove _ _ Hqk (Nat.le_refl k)) as Hqk'.
  destruct k as [|k'].
  - change (Z.of_nat 0 - 1) with (-1). rewrite (getitem_last _ _ Hfin).
    cbn [mbind result_bind].
    rewrite decide_False by (intros ->; by apply (Qclt_not_eq _ _ Hp1)).
    exists 0%nat, vk, qk. split; [done|]. split; [done|].
    split; [by apply (getitem_lookup _ 0%nat)|].
    split; [by apply Qclt_le_weak|]. intros i q' _ Hi. lia.
  - replace (Z.of_nat (S k') - 1) with (Z.of_nat k') by lia.
    destruct (lookup_lt_is_Some_2 (ps c) k') as [qm Hqm]; [lia|].
    destruct (lookup_lt_is_Some_2 (xs c) k') as [vm Hvm]; [lia|].
    rewrite (getitem_lookup _ _ _ Hqm). cbn [mbind result_bind].
    case_decide as Heq.
    + subst qm. exists k', vm, p. split; [done|]. split; [done|].
      split; [by apply getitem_lookup|]. split; [apply Qcle_refl|].
      intros i q' Hi Hik. apply (Hbelow i q' Hi). lia.
    + exists (S k'), vk, qk. split; [done|]. split; [done|].
      split; [by apply getitem_lookup|]. split; [by apply Qclt_le_weak|].
      intros i q' Hi Hik. by apply (Hbelow i q' Hi).
Qed.

Lemma Value_returns_support p :
  (0 ≤ p ≤ 1)%Qc → ∃ v, Cdf.Value c p = Ok v ∧ v ∈ xs c.
Proof.
  intros [Hp0 Hp1].
  destruct (invariants_nonempty c Hinv) as (lo & hi & Hlo & Hhi).
  destruct (decide (p = 0%Qc)) as [->|Hne0].
  { exists lo. split; [by apply Value_zero|]. by apply head_Some_elem_of. }
  destruct (decide (p = 1%Qc)) as [->|Hne1].
  { exists hi. split; [by apply Value_one|]. by apply last_Some_elem_of. }
  destruct (Value_index p) as (j & v & q & Hv & _ & HV & _).
  { destruct (Qcle_lt_or_eq _ _ Hp0); [done|congruence]. }
  { destruct (Qcle_lt_or_eq _ _ Hp1); [done|congruence]. }
  exists v. split; [done|]. by eapply list_elem_of_lookup_2.
Qed.
End Value_index.

Lemma Value_le (c : Cdf) (p q : Qc) :
  cdf_invariants c → (0 ≤ p)%Qc → (p ≤ q)%Qc → (q ≤ 1)%Qc →
  ∃ v w, Cdf.Value c p = Ok v ∧ Cdf.Value c q = Ok w ∧ (v ≤ w)%Qc.
Proof.
  intros Hinv Hp0 Hpq Hq1. pose proof Hinv as [Hxs Hps Hlen Hfin].
  destruct (invariants_nonempty c Hinv) as (lo & hi & Hlo & Hhi).
  assert (0 ≤ q)%Qc as Hq0 by by eapply Qcle_trans.
  assert (p ≤ 1)%Qc as Hp1 by by eapply Qcle_trans.
  destruct (Value_returns_support c Hinv p) as (v & Hv & Hvin); [done|].
  destruct (Value_returns_support c Hinv q) as (w & Hw & Hwin); [done|].
  exists v, w. split; [done|]. split; [done|].
  destruct (Qcle_lt_or_eq _ _ Hpq) as [Hlt| ->]; last first.
  { rewrite Hv in Hw. injection Hw as ->. apply Qcle_refl. }
  destruct (decide (p = 0%Qc)) as [->|Hne0].
  { rewrite (Value_zero c lo Hlo) in Hv. injection Hv as <-.
    by destruct (sorted_bounds (xs c) lo hi w (sorted_lt_le _ Hxs)). }
  destruct (decide (q = 1%Qc)) as [->|Hne1].
  { rewrite (Value_one c hi Hhi) in Hw. injection Hw as <-.
    by destruct (sorted_bounds (xs c) lo hi v (sorted_lt_le _ Hxs)). }
  assert (0 < p)%Qc as Hp0' by (destruct (Qcle_lt_or_eq _ _ Hp0); congruence).
  assert (q < 1)%Qc as Hq1' by (destruct (Qcle_lt_or_eq _ _ Hq1); congruence).
  destruct (Value_index c Hinv p) as (jp & v' & qp & Hjp & _ & Hv' & _ & Hbefore);
    [done|by eapply Qclt_trans|].
  destruct (Value_index c Hinv q) as (jq & w' & qq & Hjq & Hqq & Hw' & Hle & _);
    [by eapply Qclt_trans|done|].
  rewrite Hv in Hv'. injection Hv' as <-. rewrite Hw in Hw'. injection Hw' as <-.
  apply (sorted_le_lookup (xs c) jp jq); [by apply sorted_lt_le|done|done|].
  destruct (decide (jp ≤ jq)%nat) as [|Hn]; [done|exfalso].
  apply (Qclt_not_le _ _ Hlt). eapply Qcle_trans; [exact Hle|].
  apply (Hbefore jq qq Hqq). lia.
Qed.

(** X5.  On a CDF satisfying the invariants, [Value] is non-decreasing on
    the unit interval: a larger probability never gets a smaller value. *)
Theorem Value_monotone (c : Cdf) (p q : Qc) :
  cdf_invariants c → (0 ≤ p)%Qc → (p ≤ q)%Qc → (q ≤ 1)%Qc →
  ∃ v w, Cdf.Value c p = Ok v ∧ Cdf.Value c q = Ok w ∧ (v ≤ w)%Qc.
Proof. apply Value_le. Qed.

Lemma Value_monotone_witness :
  ∃ v w, Cdf.Value Render_example (qc 3 10) = Ok v ∧
         Cdf.Value Render_example (qc 7 10) = Ok w ∧ (v ≤ w)%Qc.
Proof.
  apply Value_monotone; [split; check_invariants|check_order..].
Defined.

(** X6.  On a CDF satisfying the builder invariants whose cumulative
    probabilities are strictly increasing, [Value] undoes [Prob] at every
    support point: [Value(Prob(v)) = v]. *)
Theorem Value_of_Prob_at_support (c : Cdf) (v : Qc) :
  builder_invariants c → StronglySorted Qclt (ps c) → v ∈ xs c →
  ∃ q, Cdf.Prob c v = Ok q ∧ Cdf.Value c q = Ok v.
Proof.
  intros [Hinv Hunit] Hstrict [i Hi]%list_elem_of_lookup.
  pose proof Hinv as [Hxs Hps Hlen Hfin].
  destruct (invariants_nonempty c Hinv) as (lo & hi & Hlo & Hhi).
  destruct (lookup_lt_is_Some_2 (ps c) i) as [q Hq].
  { apply lookup_lt_Some in Hi. lia. }
  exists q. split; [by apply (Prob_support c i)|].
  unfold probs_in_unit in Hunit. rewrite Forall_forall in Hunit.
  destruct (Hunit q) as [Hq0 Hq1]; [by eapply list_elem_of_lookup_2|].
  destruct (decide (q = 0%Qc)) as [->|Hne0].
  { rewrite (Value_zero c lo Hlo). f_equal.
    destruct i as [|i]; [rewrite head_lookup in Hlo; congruence|exfalso].
    destruct (lookup_lt_is_Some_2 (ps c) 0) as [q0 Hq0'].
    { apply lookup_lt_Some in Hq. lia. }
    pose proof (StronglySorted_lookup_le Qclt (ps c) 0 (S i) _ _
                  Hstrict Hq0' Hq ltac:(lia)) as Hlt.
    apply (Qclt_not_le _ _ Hlt). apply (Hunit q0).
    by eapply list_elem_of_lookup_2. }
  destruct (decide (q = 1%Qc)) as [->|Hne1].
  { rewrite (Value_one c hi Hhi). f_equal.
    rewrite last_lookup in Hhi, Hfin.
    destruct (decide (i = pred (length (xs c)))) as [->|Hne]; [congruence|].
    exfalso. apply lookup_lt_Some in Hi.
    pose proof (StronglySorted_lookup_le Qclt (ps c) i (pred (length (ps c)))
                  _ _ Hstrict Hq Hfin ltac:(lia)) as Hlt.
    by destruct (Qclt_not_eq _ _ Hlt). }
  destruct (Value_inner c Hinv q)
    as (j & v' & q' & Hv' & Hq' & -> & Hle & Hbefore).
  { destruct (Qcle_lt_or_eq _ _ Hq0); [done|congruence]. }
  { destruct (Qcle_lt_or_eq _ _ Hq1); [done|congruence]. }
  f_equal. destruct (decide (i = j)) as [->|Hne]; [congruence|exfalso].
  destruct (decide (i < j)%nat) as [Hij|Hij].
  - by destruct (Qclt_not_eq _ _ (Hbefore Hstrict i q Hq Hij)).
  - pose proof (StronglySorted_lookup_le Qclt (ps c) j i _ _
                  Hstrict Hq' Hq ltac:(lia)) as Hlt.
    by apply (Qclt_not_le _ _ Hlt).
Qed.

Lemma Value_of_Prob_at_support_witness :
  ∃ q, Cdf.Prob Render_example (qc 2 1) = Ok q ∧
       Cdf.Value Render_example q = Ok (qc 2 1).
Proof.
  apply Value_of_Prob_at_support.
  - split; [split|]; check_invariants.
  - check_invariants.
  - simpl. set_solver.
Defined.

(** ** [Percentile] *)

Lemma Qc_100_pos : (0 < Qc_of_Z 100)%Qc.
Proof. by apply Qc_of_Z_pos. Qed.

(** X7.  On a CDF satisfying the invariants, [Percentile(p)] returns a
    support value for every [p] in [[0,100]], so that it raises only for [p]
    outside that interval; [Percentile(0)] is the first value and
    [Percentile(100)] the last; and [Percentile] is non-decreasing on
    [[0,100]]. *)
Theorem Percentile_on_range (c : Cdf) (p q : Qc) :
  cdf_invariants c → (0 ≤ p)%Qc → (p ≤ q)%Qc → (q ≤ Qc_of_Z 100)%Qc →
  ∃ lo hi v w,
    head (xs c) = Some lo ∧ last (xs c) = Some hi ∧
    Cdf.Percentile c p = Ok v ∧ Cdf.Percentile c q = Ok w ∧
    v ∈ xs c ∧ w ∈ xs c ∧ (v ≤ w)%Qc ∧
    Cdf.Percentile c 0%Qc = Ok lo ∧
    Cdf.Percentile c (Qc_of_Z 100) = Ok hi.
Proof.
  intros Hinv Hp0 Hpq Hq1.
  destruct (invariants_nonempty c Hinv) as (lo & hi & Hlo & Hhi).
  pose proof Qc_100_pos as H100.
  assert (0 ≤ p / Qc_of_Z 100)%Qc as Hp0'.
  { rewrite <-(Qcdiv_0_l (Qc_of_Z 100)). by apply Qcdiv_le_mono. }
  assert (p / Qc_of_Z 100 ≤ q / Qc_of_Z 100)%Qc as Hpq'
    by by apply Qcdiv_le_mono.
  assert (q / Qc_of_Z 100 ≤ 1)%Qc as Hq1'.
  { rewrite <-(Qcdiv_diag (Qc_of_Z 100)) by by apply Qclt_not_eq in H100.
    by apply Qcdiv_le_mono. }
  destruct (Value_le c _ _ Hinv Hp0' Hpq' Hq1') as (v & w & Hv & Hw & Hvw).
  exists lo, hi, v, w. unfold Cdf.Percentile.
  split; [done|]. split; [done|]. split; [done|]. split; [done|].
  split; [|split; [|split; [done|split]]].
  - destruct (Value_returns_support c Hinv (p / Qc_of_Z 100))
      as (v' & Hv' & Hin); [split; [done|by eapply Qcle_trans]|].
    congruence.
  - destruct (Value_returns_support c Hinv (q / Qc_of_Z 100))
      as (w' & Hw' & Hin); [split; [by eapply Qcle_trans|done]|].
    congruence.
  - rewrite Qcdiv_0_l. by apply Value_zero.
  - rewrite Qcdiv_diag by by apply Qclt_not_eq in H100. by apply Value_one.
Qed.

Lemma Percentile_on_range_witness :
  ∃ lo hi v w,
    head (xs Render_example) = Some lo ∧ last (xs Render_example) = Some hi ∧
    Cdf.Percentile Render_example (qc 30 1) = Ok v ∧
    Cdf.Percentile Render_example (qc 70 1) = Ok w ∧
    v ∈ xs Render_example ∧ w ∈ xs Render_example ∧ (v ≤ w)%Qc ∧
    Cdf.Percentile Render_example 0%Qc = Ok lo ∧
    Cdf.Percentile Render_example (Qc_of_Z 100) = Ok hi.
Proof.
  apply Percentile_on_range; [split; check_invariants|check_order..].
Defined.

(** ** [Mean] *)

(** X8.  In exact arithmetic: for a non-empty histogram on which [MakeCdf]
    returns, [Mean()] of the CDF is the sum of count times value over the
    total count. *)
Theorem Mean_of_histogram (items : list (Qc * Z)) (nm : string) (c : Cdf) :
  items ≠ [] → MakeCdf items nm = Ok c →
  Cdf.Mean c = (weighted_sum items / Qc_of_Z (sum_counts items))%Qc.
Proof.
  intros Hne Hc. apply (Mean_MakeCdf items nm c Hc).
  intros Hz. by rewrite MakeCdf_zero in Hc.
Qed.

Lemma Mean_of_histogram_witness :
  ∃ c, MakeCdf [(qc 3 1, 3); (qc 1 1, 1); (qc 2 1, 2)] "" = Ok c ∧
       Cdf.Mean c
       = (weighted_sum [(qc 3 1, 3); (qc 1 1, 1); (qc 2 1, 2)]%Z
          / Qc_of_Z (sum_counts [(qc 3 1, 3); (qc 1 1, 1); (qc 2 1, 2)]%Z))%Qc.
Proof.
  eexists. split; [vm_compute; reflexivity|].
  apply (Mean_of_histogram _ "").
  - discriminate.
  - vm_compute. reflexivity.
Defined.

Lemma Qcle_0_minus (a b : Qc) : (a ≤ b → 0 ≤ b - a)%Qc.
Proof. intros Hab. by apply Qcle_minus_iff in Hab. Qed.

(** The loop of [Mean] from the state [(old, tot)]: with weights that are
    not negative, the total moves by the remaining mass times a number
    between the bounds of the values. *)
Lemma Mean_loop_bounds (lo hi : Qc) (vs qs : list Qc) (old tot : Qc) :
  Forall (λ v, lo ≤ v ≤ hi)%Qc vs →
  StronglySorted Qcle (old :: qs) →
  length vs = length qs →
  let pl := default old (last qs) in
  let r := (fold_left Cdf.Mean_step (zip vs qs) (old, tot)).2 in
  (tot + (pl - old) * lo ≤ r ∧ r ≤ tot + (pl - old) * hi)%Qc.
Proof.
  intros Hvs. revert qs old tot.
  induction Hvs as [|v vs [Hlo Hhi] Hvs IH]; intros qs old tot Hs Hlen.
  - destruct qs; [|done]. simpl.
    replace (tot + (old - old) * lo)%Qc with tot by ring.
    replace (tot + (old - old) * hi)%Qc with tot by ring.
    split; apply Qcle_refl.
  - destruct qs as [|q qs]; [done|].
    apply StronglySorted_inv in Hs as [Hs Hold].
    apply Forall_cons in Hold as [Holdq Hold].
    specialize (IH qs q (tot + (q - old) * v)%Qc Hs ltac:(simpl in Hlen; lia)).
    cbn zeta in IH. cbn zeta.
    assert (default old (last (q :: qs)) = default q (last qs)) as ->.
    { rewrite last_cons. by destruct (last qs). }
    set (pl := default q (last qs)) in *.
    change (fold_left Cdf.Mean_step (zip (v :: vs) (q :: qs)) (old, tot))
      with (fold_left Cdf.Mean_step (zip vs qs) (q, (tot + (q - old) * v)%Qc)).
    destruct IH as [IHlo IHhi].
    pose proof (Qcle_0_minus _ _ Holdq) as Hw. split.
    + eapply Qcle_trans; [|exact IHlo].
      replace (tot + (pl - old) * lo)%Qc
        with (tot + (q - old) * lo + (pl - q) * lo)%Qc by ring.
      apply Qcplus_le_mono_r, Qcplus_le_mono_l.
      by apply Qcmult_le_mono_nonneg_l.
    + eapply Qcle_trans; [exact IHhi|].
      replace (tot + (pl - old) * hi)%Qc
        with (tot + (q - old) * hi + (pl - q) * hi)%Qc by ring.
      apply Qcplus_le_mono_r, Qcplus_le_mono_l.
      by apply Qcmult_le_mono_nonneg_l.
Qed.

(** X9.  In exact arithmetic: on a CDF satisfying the builder invariants,
    [Mean()] lies between the least and the greatest support value. *)
Theorem Mean_between_extremes (c : Cdf) :
  builder_invariants c →
  ∃ lo hi, head (xs c) = Some lo ∧ last (xs c) = Some hi ∧
           (lo ≤ Cdf.Mean c ≤ hi)%Qc.
Proof.
  intros [Hinv Hunit]. pose proof Hinv as [Hxs Hps Hlen Hfin].
  destruct (invariants_nonempty c Hinv) as (lo & hi & Hlo & Hhi).
  exists lo, hi. split; [done|]. split; [done|].
  pose proof (Mean_loop_bounds lo hi (xs c) (ps c) 0%Qc 0%Qc) as Hb.
  cbn zeta in Hb. rewrite Hfin in Hb. simpl in Hb.
  replace (0 + (1 - 0) * lo)%Qc with lo in Hb by ring.
  replace (0 + (1 - 0) * hi)%Qc with hi in Hb by ring.
  apply Hb; [|constructor|]; try done.
  - apply Forall_forall. intros v Hv.
    by apply (sorted_bounds (xs c) lo hi v (sorted_lt_le _ Hxs)).
  - eapply Forall_impl; [exact Hunit|]. by intros p [Hp _].
Qed.

Lemma Mean_between_extremes_witness :
  ∃ lo hi, head (xs Render_example) = Some lo ∧
           last (xs Render_example) = Some hi ∧
           (lo ≤ Cdf.Mean Render_example ≤ hi)%Qc.
Proof.
  apply Mean_between_extremes. split; [split|]; check_invariants.
Defined.

(** ** [Render]: when it returns, and the shape of what it returns *)

Lemma Render_loop_returns c i rest rx rp :
  (i + length rest ≤ length (xs c))%nat →
  ∃ r, Cdf.Render_loop c i rest rx rp = Ok r.
Proof.
  revert i rx rp. induction rest as [|p rest IH]; intros i rx rp Hlen.
  - by eexists.
  - simpl in Hlen. cbn [Cdf.Render_loop].
    destruct (lookup_lt_is_Some_2 (xs c) i) as [xi Hxi]; [lia|].
    rewrite (getitem_lookup _ _ _ Hxi). cbn [mbind result_bind].
    destruct (getitem (xs c) (Z.of_nat i + 1)) as [xn|e] eqn:Hn.
    + apply IH. lia.
    + apply getitem_raises in Hn as ->. apply IH. lia.
Qed.

Lemma Render_loop_raises c i rest rx rp :
  (i ≤ length (xs c))%nat → (length (xs c) < i + length rest)%nat →
  Cdf.Render_loop c i rest rx rp = Raise IndexError.
Proof.
  revert i rx rp. induction rest as [|p rest IH]; intros i rx rp Hi Hlen.
  - simpl in Hlen. lia.
  - simpl in Hlen. cbn [Cdf.Render_loop].
    destruct (decide (i = length (xs c))) as [->|Hne].
    { by rewrite getitem_ge. }
    destruct (lookup_lt_is_Some_2 (xs c) i) as [xi Hxi]; [lia|].
    rewrite (getitem_lookup _ _ _ Hxi). cbn [mbind result_bind].
    destruct (getitem (xs c) (Z.of_nat i + 1)) as [xn|e] eqn:Hn.
    + apply IH; lia.
    + apply getitem_raises in Hn as ->. apply IH; lia.
Qed.

(** X10.  [Render()] returns exactly when there is at least one value and
    there are no more probabilities than values; otherwise it raises
    [IndexError]. *)
Theorem Render_returns_iff (c : Cdf) :
  (xs c ≠ [] ∧ (length (ps c) ≤ length (xs c))%nat →
   ∃ rx rp, Cdf.Render c = Ok (rx, rp)) ∧
  (xs c = [] ∨ (length (xs c) < length (ps c))%nat →
   Cdf.Render c = Raise IndexError).
Proof.
  unfold Cdf.Render. split.
  - intros [Hne Hlen]. destruct (xs c) as [|x0 l] eqn:Hxs; [done|].
    rewrite (getitem_head _ x0) by done. cbn [mbind result_bind].
    destruct (Render_loop_returns c 0 (ps c) [x0] [0%Qc]) as [[rx rp] Hr].
    { rewrite Hxs. simpl in *. lia. }
    by exists rx, rp.
  - intros [Hnil|Hlen].
    + rewrite Hnil. by rewrite (getitem_ge [] 0%nat) by (simpl; lia).
    + destruct (xs c) as [|x0 l] eqn:Hxs.
      { by rewrite (getitem_ge [] 0%nat) by (simpl; lia). }
      rewrite (getitem_head _ x0) by done. cbn [mbind result_bind].
      apply Render_loop_raises; rewrite Hxs; simpl in *; lia.
Qed.

Lemma Render_returns_iff_witness :
  (∃ rx rp, Cdf.Render Render_example = Ok (rx, rp)) ∧
  Cdf.Render (mkCdf [qc 1 1] [qc 1 2; qc 1 1] "") = Raise IndexError.
Proof.
  split.
  - apply Render_returns_iff. simpl. split; [discriminate|lia].
  - apply Render_returns_iff. right. simpl. lia.
Defined.

Lemma steps_p_elem_of (l : list Qc) p : p ∈ steps_p l → p ∈ l.
Proof.
  induction l as [|a l IH]; [done|]. destruct l as [|b l].
  - done.
  - change (steps_p (a :: b :: l)) with (a :: a :: steps_p (b :: l)).
    rewrite !elem_of_cons. intros [->|[->|Hin]]; [by left|by left|].
    right. apply IH in Hin. by apply elem_of_cons in Hin.
Qed.

Lemma steps_p_sorted (l : list Qc) :
  StronglySorted Qcle l → StronglySorted Qcle (steps_p l).
Proof.
  induction 1 as [|a l Hs IH Hall]; [constructor|].
  destruct l as [|b l]; [by repeat constructor|].
  change (steps_p (a :: b :: l)) with (a :: a :: steps_p (b :: l)).
  rewrite Forall_forall in Hall.
  assert (Forall (Qcle a) (steps_p (b :: l))) as Ha.
  { apply Forall_forall. intros p Hp. by apply Hall, steps_p_elem_of. }
  constructor; [by constructor|]. constructor; [apply Qcle_refl|done].
Qed.

Lemma steps_p_last (l : list Qc) : last (steps_p l) = last l.
Proof.
  induction l as [|a l IH]; [done|]. destruct l as [|b l]; [done|].
  rewrite last_cons_cons, <-IH.
  change (steps_p (a :: b :: l)) with (a :: a :: steps_p (b :: l)).
  rewrite last_cons_cons. by destruct l.
Qed.

Lemma double_sorted (l : list Qc) :
  StronglySorted Qcle l → StronglySorted Qcle (l ≫= λ x, [x; x]).
Proof.
  induction 1 as [|a l Hs IH Hall]; [constructor|].
  change ((a :: l) ≫= (λ x, [x; x])) with (a :: a :: (l ≫= λ x, [x; x])).
  assert (Forall (Qcle a) (l ≫= λ x, [x; x])) as Ha.
  { rewrite Forall_forall in Hall. apply Forall_forall. intros x Hx.
    apply list_elem_of_bind in Hx as (y & Hx & Hy). apply Hall.
    apply elem_of_cons in Hx as [->|Hx]; [done|].
    by apply elem_of_cons in Hx as [->|?%elem_of_nil]. }
  constructor; [by constructor|]. constructor; [apply Qcle_refl|done].
Qed.

Lemma double_last (l : list Qc) : last (l ≫= λ x, [x; x]) = last l.
Proof.
  induction l as [|a l IH]; [done|].
  change ((a :: l) ≫= (λ x, [x; x])) with (a :: a :: (l ≫= λ x, [x; x])).
  rewrite !last_cons, IH. by destruct (last l).
Qed.

(** X11.  On a CDF satisfying the builder invariants, [Render()] returns a
    staircase: both coordinate sequences are non-decreasing, the first point
    is the least value at height 0, and the last point is the greatest value
    at height 1. *)
Theorem Render_is_a_staircase (c : Cdf) :
  builder_invariants c →
  ∃ rx rp lo hi,
    Cdf.Render c = Ok (rx, rp) ∧
    head (xs c) = Some lo ∧ last (xs c) = Some hi ∧
    StronglySorted Qcle rx ∧ StronglySorted Qcle rp ∧
    head rx = Some lo ∧ head rp = Some 0%Qc ∧
    last rx = Some hi ∧ last rp = Some 1%Qc.
Proof.
  intros [Hinv Hunit]. pose proof Hinv as [Hxs Hps Hlen Hfin].
  destruct (invariants_nonempty c Hinv) as (lo & hi & Hlo & Hhi).
  exists (xs c ≫= λ x, [x; x]), (0%Qc :: steps_p (ps c)), lo, hi.
  split.
  { apply Render_closed; [|done]. intros Hnil. by rewrite Hnil in Hlo. }
  split; [done|]. split; [done|]. split; [|split; [|split; [|split; [|split]]]].
  - by apply double_sorted, sorted_lt_le.
  - constructor; [by apply steps_p_sorted|].
    apply Forall_forall. intros p Hp%steps_p_elem_of.
    unfold probs_in_unit in Hunit. rewrite Forall_forall in Hunit.
    by destruct (Hunit p Hp).
  - destruct (xs c); [done|]. by injection Hlo as ->.
  - done.
  - by rewrite double_last.
  - rewrite last_cons, steps_p_last, Hfin. done.
Qed.

Lemma Render_is_a_staircase_witness :
  ∃ rx rp lo hi,
    Cdf.Render Render_example = Ok (rx, rp) ∧
    head (xs Render_example) = Some lo ∧ last (xs Render_example) = Some hi ∧
    StronglySorted Qcle rx ∧ StronglySorted Qcle rp ∧
    head rx = Some lo ∧ head rp = Some 0%Qc ∧
    last rx = Some hi ∧ last rp = Some 1%Qc.
Proof.
  apply Render_is_a_staircase. split; [split|]; check_invariants.
Defined.

(** ** The builders do not depend on the order of their input *)

Lemma sorted_perm_eq items items' : items ≡ₚ items' → sorted items = sorted items'.
Proof.
  intros Hp. apply sorted_unique; [apply sorted_StronglySorted|].
  by rewrite sorted_perm.
Qed.

(** X12.  [MakeCdf] returns the same result for every arrangement of the
    same pairs; in particular the result of [MakeCdfFromDict] does not
    depend on the order in which the dictionary enumerates its entries. *)
Theorem MakeCdf_order_independent
    (items items' : list (Qc * Z)) (d : gmap Qc Z) (nm : string) :
  (items ≡ₚ items' → MakeCdf items nm = MakeCdf items' nm) ∧
  (items ≡ₚ map_to_list d → MakeCdfFromDict d nm = MakeCdf items nm).
Proof.
  assert (∀ l l', l ≡ₚ l' → MakeCdf l nm = MakeCdf l' nm) as Hperm.
  { intros l l' Hp. unfold MakeCdf. by rewrite (sorted_perm_eq l l' Hp). }
  split; [apply Hperm|]. intros Hp. unfold MakeCdfFromDict. by apply Hperm.
Qed.

Lemma MakeCdf_order_independent_witness :
  MakeCdf [(qc 3 1, 3); (qc 1 1, 1); (qc 2 1, 2)] ""
  = MakeCdf [(qc 1 1, 1); (qc 2 1, 2); (qc 3 1, 3)] "" ∧
  MakeCdfFromDict (<[qc 3 1 := 3]> (<[qc 1 1 := 1]> ∅)) ""
  = MakeCdf [(qc 3 1, 3); (qc 1 1, 1)] "".
Proof.
  split.
  - apply (MakeCdf_order_independent _ _ ∅).
    apply (bool_decide_unpack _). vm_compute. exact I.
  - apply (MakeCdf_order_independent _ []).
    apply (bool_decide_unpack _). vm_compute. exact I.
Defined.

Lemma tally_comm hist x y :
  tally (tally hist x) y = tally (tally hist y) x.
Proof.
  destruct (decide (x = y)) as [->|Hne]; [done|]. unfold tally.
  rewrite !lookup_insert_ne by done. by apply insert_insert_ne.
Qed.

Lemma hist_perm seq seq' hist :
  seq ≡ₚ seq' → fold_left tally seq hist = fold_left tally seq' hist.
Proof.
  intros Hp. revert hist.
  induction Hp as [|x l l' _ IH|x y l|l l' l'' _ IH1 _ IH2]; intros hist; simpl.
  - done.
  - apply IH.
  - by rewrite tally_comm.
  - by rewrite IH1.
Qed.

(** X13.  [MakeCdfFromList] returns the same result for every arrangement
    of the same samples. *)
Theorem MakeCdfFromList_order_independent (seq seq' : list Qc) (nm : string) :
  seq ≡ₚ seq' → MakeCdfFromList seq nm = MakeCdfFromList seq' nm.
Proof.
  intros Hp. unfold MakeCdfFromList. by rewrite (hist_perm seq seq' ∅ Hp).
Qed.

Lemma MakeCdfFromList_order_independent_witness :
  MakeCdfFromList [qc 3 1; qc 1 1; qc 3 1; qc 2 1] ""
  = MakeCdfFromList [qc 1 1; qc 2 1; qc 3 1; qc 3 1] "".
Proof.
  apply MakeCdfFromList_order_independent.
  apply (bool_decide_unpack _). vm_compute. exact I.
Defined.

(** ** What the builders keep of their input *)

(** X14.  Whenever [MakeCdf] returns, the values of the CDF are the values
    of the pairs in ascending order, one for each pair: a value that occurs
    in several pairs occurs as often among the values, and there is one
    cumulative probability for each pair. *)
Theorem MakeCdf_keeps_every_pair
    (items : list (Qc * Z)) (nm : string) (c : Cdf) :
  MakeCdf items nm = Ok c →
  xs c ≡ₚ items.*1 ∧ StronglySorted Qcle (xs c) ∧
  length (ps c) = length items ∧ name c = nm.
Proof.
  rewrite MakeCdf_unfold.
  destruct (fractions _ _) as [qs|e] eqn:Hqs; [|done].
  cbn [mbind result_bind]. intros [= <-]. cbn [xs ps name].
  split; [by rewrite sorted_perm|]. split; [|split; [|done]].
  - apply (StronglySorted_fmap _ tuple_le); [apply tuple_le_fst|].
    apply sorted_StronglySorted.
  - assert (∀ t cs qs', fractions t cs = Ok qs' → length qs' = length cs)
      as Hfr.
    { intros t cs. induction cs as [|n cs IH]; intros qs'; simpl.
      - by intros [= <-].
      - destruct (truediv _ _); [|done]. cbn [mbind result_bind].
        destruct (fractions t cs) as [qs''|]; [|done].
        cbn [mbind result_bind]. intros [= <-]. simpl. f_equal. by apply IH. }
    rewrite (Hfr _ _ _ Hqs), running_length, length_fmap.
    apply Permutation_length, sorted_perm.
Qed.

Lemma MakeCdf_keeps_every_pair_witness :
  ∃ c, MakeCdf [(qc 2 1, 1); (qc 1 1, 1); (qc 2 1, 3)] "" = Ok c ∧
       xs c ≡ₚ [(qc 2 1, 1); (qc 1 1, 1); (qc 2 1, 3)].*1 ∧
       StronglySorted Qcle (xs c) ∧
       length (ps c) = length [(qc 2 1, 1); (qc 1 1, 1); (qc 2 1, 3)] ∧
       name c = "".
Proof.
  eexists. split; [vm_compute; reflexivity|].
  apply MakeCdf_keeps_every_pair. vm_compute. reflexivity.
Defined.

Lemma hist_lookup seq hist v :
  is_Some (fold_left tally seq hist !! v) ↔ v ∈ seq ∨ is_Some (hist !! v).
Proof.
  revert hist. induction seq as [|x seq IH]; intros hist; simpl.
  - rewrite elem_of_nil. tauto.
  - rewrite IH, elem_of_cons. unfold tally.
    destruct (decide (v = x)) as [->|Hne].
    + rewrite lookup_insert_eq. split; [by left; left|by right].
    + rewrite lookup_insert_ne by done. tauto.
Qed.

(** X15.  [MakeCdfFromList] returns for every sequence of samples, the
    empty one included, and the values of the CDF are exactly the distinct
    samples, in strictly ascending order. *)
Theorem MakeCdfFromList_values (seq : list Qc) (nm : string) :
  ∃ c, MakeCdfFromList seq nm = Ok c ∧
       (∀ v, v ∈ xs c ↔ v ∈ seq) ∧
       StronglySorted Qclt (xs c).
Proof.
  assert (∀ c, MakeCdfFromList seq nm = Ok c → ∀ v, v ∈ xs c ↔ v ∈ seq)
    as Hmem.
  { intros c Hc v. unfold MakeCdfFromList, MakeCdfFromDict in Hc.
    rewrite MakeCdf_unfold in Hc.
    destruct (fractions _ _) as [qs|e]; [|done].
    cbn [mbind result_bind] in Hc. injection Hc as <-. cbn [xs].
    rewrite sorted_perm, list_elem_of_fmap.
    pose proof (hist_lookup seq ∅ v) as Hl. rewrite lookup_empty in Hl.
    split.
    - intros ([v' n] & -> & Hin%elem_of_map_to_list).
      destruct (proj1 Hl) as [|Hnone]; [by exists n|done|].
      by apply is_Some_None in Hnone.
    - intros Hv. destruct (proj2 Hl) as [n Hn]; [by left|].
      exists (v, n). split; [done|]. by apply elem_of_map_to_list. }
  destruct seq as [|s seq].
  - exists (mkCdf [] [] nm). split; [done|]. split; [by apply Hmem|].
    constructor.
  - destruct (MakeCdfFromList_invariants (s :: seq) nm) as (c & Hc & [Hinv _] & _);
      [done|].
    exists c. split; [done|]. split; [by apply Hmem|]. by destruct Hinv.
Qed.

(** ** The CDF of empty input *)

(** X16.  The CDF that [MakeCdf] returns for the empty sequence answers no
    query: [Prob] and [Render] raise [IndexError], [Value] raises
    [ValueError] outside the unit interval and [IndexError] inside it, and
    [Mean] returns 0. *)
Theorem empty_cdf_answers_nothing (nm : string) (x p : Qc) :
  ∃ c, MakeCdf [] nm = Ok c ∧
       Cdf.Prob c x = Raise IndexError ∧
       Cdf.Render c = Raise IndexError ∧
       ((p < 0 ∨ 1 < p)%Qc → Cdf.Value c p = Raise ValueError) ∧
       ((0 ≤ p ≤ 1)%Qc → Cdf.Value c p = Raise IndexError) ∧
       Cdf.Mean c = 0%Qc.
Proof.
  exists (mkCdf [] [] nm). split; [done|]. split; [done|]. split; [done|].
  split; [apply Value_out_of_range|]. split; [|done].
  intros Hp%Qc_in_unit_interval. unfold Cdf.Value.
  rewrite decide_False by done. repeat case_decide; done.
Qed.

Lemma empty_cdf_answers_nothing_witness :
  ∃ c, MakeCdf [] "" = Ok c ∧
       Cdf.Prob c (qc 1 1) = Raise IndexError ∧
       Cdf.Render c = Raise IndexError ∧
       ((qc 1 2 < 0 ∨ 1 < qc 1 2)%Qc → Cdf.Value c (qc 1 2) = Raise ValueError) ∧
       ((0 ≤ qc 1 2 ≤ 1)%Qc → Cdf.Value c (qc 1 2) = Raise IndexError) ∧
       Cdf.Mean c = 0%Qc.
Proof. apply empty_cdf_answers_nothing. Defined.

(** ** The sweep of [ProbLess] on objects that carry [data] *)

Section ProbLess_sweep.
Variables (cdf1 cdf2 : pyobj) (l1 l2 : list (Qc * Qc)).
Hypothesis data1 : getattr cdf1 "data" = Ok (VPairs l1).
Hypothesis data2 : getattr cdf2 "data" = Ok (VPairs l2).

(** The inner loop, having just read the pair at [m] and moved [j] past
    it. *)
Lemma ProbLess_inner_scan fuel cur m xv yv :
  l2 !! m = Some (xv, yv) → (S m < length l2)%nat →
  (∀ i it, l2 !! i = Some it → (i < m)%nat → (it.1 ≤ cur)%Qc) →
  (length l2 - S m ≤ fuel)%nat →
  ∃ x' y' j',
    ProbLess_inner fuel cdf2 cur (Fin xv) (Some yv) (Z.of_nat (S m))
    = Ok (x', Some y', Z.of_nat j') ∧
    held l2 cur x' (Some y') j'.
Proof.
  revert m xv yv.
  induction fuel as [|fuel IH]; intros m xv yv Hm Hlt Hbefore Hfuel.
  - cbn [ProbLess_inner]. case_decide as Hle; [lia|].
    exists (Fin xv), yv, (S m). split; [done|].
    exists m, xv, yv. repeat split; try done. left.
    repeat split; try done. by apply Qcnot_le_lt.
  - cbn [ProbLess_inner]. case_decide as Hle; last first.
    { exists (Fin xv), yv, (S m). split; [done|].
      exists m, xv, yv. repeat split; try done. left.
      repeat split; try done. by apply Qcnot_le_lt. }
    simpl in Hle. rewrite data2. cbn [mbind result_bind subscript_pair len].
    destruct (lookup_lt_is_Some_2 l2 (S m) Hlt) as [[x' y'] Hl].
    rewrite (getitem_lookup _ _ _ Hl). cbn [mbind result_bind].
    assert (∀ i it, l2 !! i = Some it → (i < S m)%nat → (it.1 ≤ cur)%Qc)
      as Hbefore'.
    { intros i it Hi Hlti. destruct (decide (i = m)) as [->|Hne].
      - rewrite Hm in Hi. by injection Hi as <-.
      - apply (Hbefore i it Hi). lia. }
    case_decide as Hlast.
    + exists (Fin x'), y', (S m). split; [done|].
      exists (S m), x', y'. repeat split; try done. right. split; [done|lia].
    + replace (Z.of_nat (S m) + 1) with (Z.of_nat (S (S m))) by lia.
      apply IH; [done|lia|done|lia].
Qed.

Lemma ProbLess_inner_ready fuel cur' x y j :
  ready l2 cur' x y j → l2 ≠ [] → (length l2 ≤ fuel)%nat →
  ∃ x' y' j',
    ProbLess_inner fuel cdf2 cur' x y (Z.of_nat j)
    = Ok (x', Some y', Z.of_nat j') ∧
    held l2 cur' x' (Some y') j'.
Proof.
  intros Hready Hne Hfuel.
  assert (0 < length l2)%nat as Hpos.
  { destruct (decide (length l2 = 0%nat)) as [Hz%nil_length_inv|]; [done|lia]. }
  destruct fuel as [|fuel]; [lia|].
  destruct Hready as [(-> & -> & ->)|(cur & Hcur & m & xv & yv & Hm & -> & ->
                                        & Hbefore & Hj)].
  - cbn [ProbLess_inner]. rewrite decide_True by done.
    rewrite data2. cbn [mbind result_bind subscript_pair len].
    destruct (lookup_lt_is_Some_2 l2 0 Hpos) as [[x0 y0] H0].
    rewrite (getitem_lookup _ 0%nat _ H0). cbn [mbind result_bind].
    case_decide as Hlast.
    + exists (Fin x0), y0, 0%nat. split; [done|].
      exists 0%nat, x0, y0. repeat split; try done; [intros; lia|].
      right. split; [done|lia].
    + change (Z.of_nat 0 + 1) with (Z.of_nat 1).
      apply ProbLess_inner_scan; [done|lia|intros; lia|lia].
  - assert (∀ i it, l2 !! i = Some it → (i < m)%nat → (it.1 ≤ cur')%Qc)
      as Hbefore'.
    { intros i it Hi Hlt. eapply Qcle_trans; [|exact Hcur].
      by apply (Hbefore i it Hi). }
    destruct Hj as [(-> & Hlt & Hxv)|(-> & Hlast)].
    + apply ProbLess_inner_scan; [done|done|done|lia].
    + cbn [ProbLess_inner]. case_decide as Hle.
      * rewrite data2. cbn [mbind result_bind subscript_pair len].
        rewrite (getitem_lookup _ _ _ Hm). cbn [mbind result_bind].
        rewrite decide_True by lia.
        exists (Fin xv), yv, m. split; [done|].
        exists m, xv, yv. repeat split; try done. by right.
      * exists (Fin xv), yv, m. split; [done|].
        exists m, xv, yv. repeat split; try done. by right.
Qed.

Lemma held_cdf_after cur x yv j :
  held l2 cur x (Some yv) j → cdf_after l2 cur = yv.
Proof.
  intros (m & xv & yv' & Hm & _ & [= <-] & Hbefore & Hj). unfold cdf_after.
  destruct (decide (cur < xv)%Qc) as [Hlt|Hnlt].
  - rewrite (proj2 (list_find_Some _ l2 m (xv, yv))); [done|].
    split; [done|]. split; [done|].
    intros i it Hi Hlti. apply Qcle_not_lt. by apply (Hbefore i it Hi).
  - destruct Hj as [(_ & _ & Hlt)|(_ & Hlast)]; [done|].
    rewrite (proj2 (list_find_None _ l2)).
    + rewrite last_lookup, <-Hlast. simpl. by rewrite Hm.
    + apply Forall_forall. intros it [i Hi]%list_elem_of_lookup.
      pose proof (lookup_lt_Some _ _ _ Hi).
      destruct (decide (i = m)) as [->|Hne].
      * rewrite Hm in Hi. by injection Hi as <-.
      * apply Qcle_not_lt. apply (Hbefore i it Hi). lia.
Qed.

Lemma sweep_cons_cons x1 p1 x2 p2 (rest : list (Qc * Qc)) :
  sweep l2 ((x1, p1) :: (x2, p2) :: rest)
  = ((p2 - p1) * (1 - cdf_after l2 x2) + sweep l2 ((x2, p2) :: rest))%Qc.
Proof. reflexivity. Qed.

Lemma ProbLess_outer_sweep budget fuel total (i j : nat) x y :
  l2 ≠ [] → (length l2 ≤ budget)%nat →
  StronglySorted Qcle l1.*1 →
  (S i < length l1)%nat → (length l1 - S i ≤ fuel)%nat →
  (∀ x2 p2, l1 !! S i = Some (x2, p2) → ready l2 x2 x y j) →
  ProbLess_outer budget fuel cdf1 cdf2 total (Z.of_nat i) (Z.of_nat j) x y
  = Ok (total + sweep l2 (drop i l1))%Qc.
Proof.
  intros Hne Hbudget Hsorted. revert total i j x y.
  induction fuel as [|fuel IH]; intros total i j x y Hi Hfuel Hready; [lia|].
  cbn [ProbLess_outer]. rewrite data1.
  cbn [mbind result_bind subscript_pair len].
  destruct (lookup_lt_is_Some_2 l1 i) as [[x1 p1] Hl1]; [lia|].
  destruct (lookup_lt_is_Some_2 l1 (S i)) as [[x2 p2] Hl2]; [lia|].
  rewrite (getitem_lookup _ _ _ Hl1). cbn [mbind result_bind].
  replace (Z.of_nat i + 1) with (Z.of_nat (S i)) by lia.
  rewrite (getitem_lookup _ _ _ Hl2). cbn [mbind result_bind].
  destruct (ProbLess_inner_ready budget x2 x y j (Hready _ _ Hl2) Hne Hbudget)
    as (x' & y' & j' & -> & Hheld).
  cbn [mbind result_bind of_option].
  rewrite (drop_S _ _ _ Hl1), (drop_S _ _ _ Hl2), sweep_cons_cons.
  rewrite (held_cdf_after _ _ _ _ Hheld).
  case_decide as Hlast.
  - rewrite drop_ge by lia. cbn [sweep]. f_equal. ring.
  - rewrite IH.
    + rewrite (drop_S _ _ _ Hl2). f_equal. ring.
    + lia.
    + lia.
    + intros x3 p3 Hl3. right. exists x2. split; [|done].
      apply (sorted_le_lookup l1.*1 (S i) (S (S i))); [done| | |lia].
      * by rewrite list_lookup_fmap, Hl2.
      * by rewrite list_lookup_fmap, Hl3.
Qed.

Lemma ProbLess_sweep fuel :
  (2 ≤ length l1)%nat → l2 ≠ [] → StronglySorted Qcle l1.*1 →
  (length l1 ≤ fuel)%nat → (length l2 ≤ fuel)%nat →
  ProbLess fuel cdf1 cdf2 = Ok (sweep l2 l1).
Proof.
  intros Hl1 Hne Hsorted Hf1 Hf2. unfold ProbLess.
  change (ProbLess_outer fuel fuel cdf1 cdf2 0%Qc
            (Z.of_nat 0) (Z.of_nat 0) NegInf None = Ok (sweep l2 l1)).
  rewrite (ProbLess_outer_sweep fuel fuel 0%Qc 0 0 NegInf None);
    try done; try lia.
  - rewrite drop_0. f_equal. ring.
  - intros x2 p2 _. by left.
Qed.

Lemma ProbLess_short_data fuel :
  (length l1 < 2)%nat ∨ l2 = [] →
  ProbLess (S fuel) cdf1 cdf2 = Raise IndexError.
Proof.
  intros Hshort. unfold ProbLess.
  change (ProbLess_outer (S fuel) (S fuel) cdf1 cdf2 0%Qc
            (Z.of_nat 0) (Z.of_nat 0) NegInf None = Raise IndexError).
  cbn [ProbLess_outer]. rewrite data1.
  cbn [mbind result_bind subscript_pair len].
  destruct (decide (length l1 = 0)%nat) as [Hz|Hnz].
  { by rewrite (getitem_ge l1 0%nat) by lia. }
  destruct (lookup_lt_is_Some_2 l1 0) as [[x1 p1] H0]; [lia|].
  rewrite (getitem_lookup _ 0%nat _ H0). cbn [mbind result_bind].
  change (Z.of_nat 0 + 1) with (Z.of_nat 1).
  destruct (decide (length l1 = 1)%nat) as [Hone|Hmore].
  { by rewrite (getitem_ge l1 1%nat) by lia. }
  destruct (lookup_lt_is_Some_2 l1 1) as [[x2 p2] H1]; [lia|].
  rewrite (getitem_lookup _ 1%nat _ H1).
  cbn [mbind result_bind ProbLess_inner]. rewrite decide_True by done.
  rewrite data2. cbn [mbind result_bind subscript_pair].
  destruct Hshort as [Hshort|Hnil]; [lia|].
  rewrite (getitem_ge l2 0%nat); [done|]. rewrite Hnil. simpl. lia.
Qed.
End ProbLess_sweep.

(** X17.  On two objects whose [data] are lists of pairs [(x, p)], the first
    with at least two pairs and its [x] ascending, the second not empty,
    [ProbLess] with fuel for both lists returns the sum, over the consecutive
    pairs [(x1, p1)], [(x2, p2)] of the first list, of [p2 - p1] times one
    minus the [p] of the first pair of the second list whose [x] is above
    [x2] (of its last pair when there is none). *)
Theorem ProbLess_computes_sweep
    (cdf1 cdf2 : pyobj) (l1 l2 : list (Qc * Qc)) (fuel : nat) :
  getattr cdf1 "data" = Ok (VPairs l1) →
  getattr cdf2 "data" = Ok (VPairs l2) →
  (2 ≤ length l1)%nat → l2 ≠ [] → StronglySorted Qcle l1.*1 →
  (length l1 ≤ fuel)%nat → (length l2 ≤ fuel)%nat →
  ProbLess fuel cdf1 cdf2 = Ok (sweep l2 l1).
Proof. intros. by apply (ProbLess_sweep cdf1 cdf2 l1 l2). Qed.

Lemma ProbLess_computes_sweep_witness :
  ProbLess 3
    (data_obj [(qc 1 1, qc 1 6); (qc 2 1, qc 1 2); (qc 3 1, qc 1 1)])
    (data_obj [(qc 5 2, qc 1 4); (qc 7 2, qc 1 1)])
  = Ok (sweep [(qc 5 2, qc 1 4); (qc 7 2, qc 1 1)]
              [(qc 1 1, qc 1 6); (qc 2 1, qc 1 2); (qc 3 1, qc 1 1)]).
Proof.
  apply ProbLess_computes_sweep.
  - apply getattr_data_obj.
  - apply getattr_data_obj.
  - simpl. lia.
  - discriminate.
  - simpl. check_invariants.
  - simpl. lia.
  - simpl. lia.
Defined.

(** X18.  On two objects whose [data] are lists of pairs, [ProbLess] raises
    [IndexError] when the first list has fewer than two pairs or the second
    is empty, and returns a number in every other case, whether the lists
    are ascending or not: one pair in the second list is enough. *)
Theorem ProbLess_returns_iff
    (cdf1 cdf2 : pyobj) (l1 l2 : list (Qc * Qc)) (fuel : nat) :
  getattr cdf1 "data" = Ok (VPairs l1) →
  getattr cdf2 "data" = Ok (VPairs l2) →
  ((length l1 < 2)%nat ∨ l2 = [] →
   ProbLess (S fuel) cdf1 cdf2 = Raise IndexError) ∧
  ((2 ≤ length l1)%nat → (1 ≤ length l2)%nat →
   (length l1 ≤ fuel)%nat → (length l2 ≤ fuel)%nat →
   ∃ t, ProbLess fuel cdf1 cdf2 = Ok t).
Proof.
  intros Hd1 Hd2. split.
  - by apply (ProbLess_short_data cdf1 cdf2 l1 l2).
  - by apply (ProbLess_returns cdf1 cdf2 l1 l2).
Qed.

Lemma ProbLess_returns_iff_witness :
  ProbLess 1 (data_obj [(qc 1 1, qc 1 1)]) (data_obj [(qc 1 1, qc 1 1)])
  = Raise IndexError ∧
  ∃ t, ProbLess 2 (data_obj [(qc 1 1, qc 1 2); (qc 2 1, qc 1 1)])
                  (data_obj [(qc 1 1, qc 1 1)]) = Ok t.
Proof.
  split.
  - apply (ProbLess_returns_iff _ _ [(qc 1 1, qc 1 1)] [(qc 1 1, qc 1 1)]);
      [apply getattr_data_obj..|]. left. simpl. lia.
  - apply (ProbLess_returns_iff _ _ [(qc 1 1, qc 1 2); (qc 2 1, qc 1 1)]
             [(qc 1 1, qc 1 1)] 2);
      [apply getattr_data_obj..|simpl; lia|simpl; lia|simpl; lia|simpl; lia].
Defined.

(** ** [Prob] is a step function *)

(** X19.  On a CDF with strictly ascending values and as many probabilities
    as values, [Prob] is the right-continuous step function of the table:
    from the support value of index [i] up to, and not including, the next
    support value, [Prob] is the cumulative probability of index [i]. *)
Theorem Prob_is_step_function (c : Cdf) (i : nat) (v q x : Qc) :
  StronglySorted Qclt (xs c) → length (xs c) = length (ps c) →
  xs c !! i = Some v → ps c !! i = Some q →
  (v ≤ x)%Qc → (∀ w, xs c !! S i = Some w → (x < w)%Qc) →
  Cdf.Prob c x = Ok q.
Proof.
  intros Hs Hlen Hv Hq Hvx Hnext.
  destruct (xs c) as [|lo l] eqn:Hxs; [done|]. rewrite <-Hxs in *.
  assert (head (xs c) = Some lo) as Hlo by by rewrite Hxs.
  assert (lo ≤ x)%Qc as Hlox.
  { eapply Qcle_trans; [|exact Hvx].
    apply (sorted_le_lookup (xs c) 0 i); [by apply sorted_lt_le| |done|lia].
    by rewrite <-head_lookup. }
  destruct (Prob_insertion c (sorted_lt_le _ Hs) Hlen x lo Hlo Hlox)
    as (k & p & Hk & _ & Hp & ->).
  assert (insertion_point (xs c) x (S i)) as Hi.
  { pose proof (lookup_lt_Some _ _ _ Hv). split; [lia|]. split.
    - intros j w Hj Hlt. eapply Qcle_trans; [|exact Hvx].
      apply (sorted_le_lookup (xs c) j i); [by apply sorted_lt_le|done|done|lia].
    - intros j w Hj Hle.
      destruct (lookup_lt_is_Some_2 (xs c) (S i)) as [w' Hw'].
      { apply lookup_lt_Some in Hj. lia. }
      eapply Qclt_le_trans; [by apply Hnext|].
      apply (sorted_le_lookup (xs c) (S i) j); [by apply sorted_lt_le|done|done|lia]. }
  rewrite (insertion_point_unique _ _ _ _ Hk Hi) in Hp.
  replace (S i - 1)%nat with i in Hp by lia. congruence.
Qed.

Lemma Prob_is_step_function_witness :
  Cdf.Prob Render_example (qc 5 2) = Ok (qc 1 2).
Proof.
  apply (Prob_is_step_function Render_example 1 (qc 2 1)).
  - check_invariants.
  - reflexivity.
  - reflexivity.
  - reflexivity.
  - check_order.
  - intros w [= <-]. check_order.
Defined.
